(** * A shallow embedding of [redis_server_lab2.py]

    The Python class [RedisServer] keeps two insertion-ordered dictionaries
    ([store] and [expiry_times]) and two counters, and answers line-based
    commands.  The embedding follows the source method by method:

    - Python [str] values are Rocq strings.  The model covers ASCII text
      ([Py.isascii]): on it [decode('utf-8')] changes nothing and [len],
      [split], [strip], [upper] and [int] agree with the functions below.
      Characters above 127 are treated as caseless non-blanks that are not
      digits, which is not what Python does with them; a statement that
      depends on how a text is tokenized, trimmed, upper-cased or read as a
      number is made for ASCII text.
    - [time.time()] is an effect: a handler reads the clock through
      [time_time], and every read takes the next value of a clock oracle.
      Clock values and expiry instants are rationals (every binary64 value
      is one) and [+], [-], [*] on them are exact: the rounding of float
      arithmetic is not modelled, the [OverflowError] of converting a huge
      integer to a float is.  Float arithmetic gives the exact result
      whenever that result is a binary64 value ([Py.is_float]); a statement
      about the number that TTL, PTTL or EXPIRE computes is made under that
      condition.
    - Python exceptions are the left summand of the result; the
      dispatcher's [try ... except Exception] is [try_except].
    - A dictionary is an association list in insertion order, which is
      what [KEYS] prints. *)

From Stdlib Require Import ZArith QArith Qround String Ascii List Bool Lia Lqa.
From Stdlib Require Import DecimalString.
Import ListNotations.

Open Scope list_scope.
Open Scope string_scope.

(** ** Python strings *)

Module Py.

Definition LF : string := String (ascii_of_nat 10) "".
Definition CRLF : string := String (ascii_of_nat 13) LF.

(** [str.isspace] on one ASCII character: TAB, LF, VT, FF, CR, the four
    separators FS..US and the blank. *)
Definition is_space (c : ascii) : bool :=
  let n := nat_of_ascii c in
  ((9 <=? n) && (n <=? 13) || (28 <=? n) && (n <=? 32))%nat.

(** [s.lstrip()], [s.rstrip()] and [s.strip()]. *)
Fixpoint lstrip (s : string) : string :=
  match s with
  | String c s' => if is_space c then lstrip s' else s
  | "" => ""
  end.

Fixpoint rstrip (s : string) : string :=
  match s with
  | "" => ""
  | String c s' =>
      match rstrip s' with
      | "" => if is_space c then "" else String c ""
      | r => String c r
      end
  end.

Definition strip (s : string) : string := rstrip (lstrip s).

(** [s.split()]: the maximal runs of non-blank characters, in order. *)
Fixpoint split (s : string) : list string :=
  match s with
  | "" => []
  | String c s' =>
      if is_space c then split s'
      else
        match s' with
        | "" => [String c ""]
        | String c' _ =>
            if is_space c' then String c "" :: split s'
            else
              match split s' with
              | t :: ts => String c t :: ts
              | [] => [String c ""]
              end
        end
  end.

(** [s.upper()] on ASCII text. *)
Definition upper_char (c : ascii) : ascii :=
  let n := nat_of_ascii c in
  if ((97 <=? n) && (n <=? 122))%nat then ascii_of_nat (n - 32) else c.

Fixpoint upper (s : string) : string :=
  match s with
  | "" => ""
  | String c s' => String (upper_char c) (upper s')
  end.

(** [s.lower()] on ASCII text. *)
Definition lower_char (c : ascii) : ascii :=
  let n := nat_of_ascii c in
  if ((65 <=? n) && (n <=? 90))%nat then ascii_of_nat (n + 32) else c.

Fixpoint lower (s : string) : string :=
  match s with
  | "" => ""
  | String c s' => String (lower_char c) (lower s')
  end.

(** [sep.join(l)]. *)
Definition join (sep : string) (l : list string) : string :=
  String.concat sep l.

(** [str(n)] for an integer [n]. *)
Definition str (n : Z) : string := NilZero.string_of_int (Z.to_int n).

(** [len(s)]. *)
Definition len (s : string) : Z := Z.of_nat (String.length s).

(** [s.isascii()]: every character is below 128. *)
Fixpoint isascii (s : string) : bool :=
  match s with
  | "" => true
  | String c s' => (nat_of_ascii c <? 128)%nat && isascii s'
  end.

(** [int(s)] for an ASCII token [s] (no surrounding blanks): an optional
    sign and decimal digits, single underscores allowed between digits.
    [None] stands for [ValueError].  Recent interpreters also raise
    [ValueError] for a literal of more than [int_max_str_digits] digits;
    the function below does not, so it is [int] for the shorter ones. *)
Definition int_max_str_digits : nat := 4300.

Definition digit_of (c : ascii) : option Z :=
  let n := nat_of_ascii c in
  if ((48 <=? n) && (n <=? 57))%nat then Some (Z.of_nat (n - 48)) else None.

Fixpoint int_digits (acc : Z) (after_digit : bool) (s : string) : option Z :=
  match s with
  | "" => if after_digit then Some acc else None
  | String c s' =>
      match digit_of c with
      | Some d => int_digits (10 * acc + d) true s'
      | None =>
          if (Ascii.eqb c "_" && after_digit)%bool
          then int_digits acc false s'
          else None
      end
  end.

Definition int_of_str (s : string) : option Z :=
  match s with
  | String "-" s' => option_map Z.opp (int_digits 0 false s')
  | String "+" s' => int_digits 0 false s'
  | _ => int_digits 0 false s
  end.

(** [int(x)] for a float [x]: truncation towards zero. *)
Definition int_of_float (x : Q) : Z := Z.quot (Qnum x) (Zpos (Qden x)).

(** [float(n)] for an integer [n], as [float + int] computes it: integers
    that round to a finite binary64 value convert, and the others raise
    [OverflowError] ([None]).  The rounding itself is not modelled. *)
Definition float_limit : Z := 2 ^ 1024 - 2 ^ 970.

Definition float_of_int (n : Z) : option Q :=
  if (Z.abs n <? float_limit)%Z then Some (inject_Z n) else None.

Arguments float_of_int : simpl never.

(** [a > b] on floats. *)
Definition gt (a b : Q) : bool := negb (Qle_bool a b).

(** The rationals that are binary64 values: [m * 2^e] with [|m| < 2^53]
    and [-1074 <= e <= 971].  In lowest terms the denominator is a power
    of two, at most [2^1074]; the numerator is below [2^1024] and, when it
    has more than 53 bits, its bits below the leading 53 are zero.  The
    sum, difference or product of two floats is computed exactly when the
    exact result is such a value. *)
Definition is_float (x : Q) : bool :=
  let y := Qred x in
  let n := Z.abs (Qnum y) in
  let d := Zpos (Qden y) in
  ((d =? 2 ^ Z.log2 d) && (Z.log2 d <=? 1074) &&
   (n <? 2 ^ 1024) && (n mod 2 ^ Z.max 0 (Z.log2 n + 1 - 53) =? 0))%Z.

(** [buffer.split('\n', 1)] when ['\n' in buffer]: the text before the
    first line feed and the text after it; [None] when there is none. *)
Fixpoint split_first_lf (s : string) : option (string * string) :=
  match s with
  | "" => None
  | String c s' =>
      if Ascii.eqb c (ascii_of_nat 10) then Some ("", s')
      else
        match split_first_lf s' with
        | Some (line, rest) => Some (String c line, rest)
        | None => None
        end
  end.

End Py.

(** ** Insertion-ordered dictionaries with string keys *)

Module Dict.
Section Dict.

Context {V : Type}.

Definition dict : Type := list (string * V).

Definition empty : dict := [].

(** [d.get(key)] / [d[key]]: [None] is a missing key. *)
Fixpoint get (key : string) (d : dict) : option V :=
  match d with
  | [] => None
  | (k, v) :: d' => if String.eqb key k then Some v else get key d'
  end.

(** [key in d]. *)
Definition contains (key : string) (d : dict) : bool :=
  match get key d with Some _ => true | None => false end.

(** [d[key] = value]: an existing key keeps its position, a new key goes
    to the end. *)
Fixpoint set (key : string) (value : V) (d : dict) : dict :=
  match d with
  | [] => [(key, value)]
  | (k, v) :: d' =>
      if String.eqb key k then (key, value) :: d'
      else (k, v) :: set key value d'
  end.

(** What [del d[key]] leaves, for a key that is present. *)
Fixpoint remove (key : string) (d : dict) : dict :=
  match d with
  | [] => []
  | (k, v) :: d' =>
      if String.eqb key k then remove key d' else (k, v) :: remove key d'
  end.

(** [d.keys()], [d.items()], [len(d)]. *)
Definition keys (d : dict) : list string := map fst d.
Definition items (d : dict) : list (string * V) := d.
Definition size (d : dict) : Z := Z.of_nat (List.length d).

End Dict.
Arguments dict : clear implicits.
End Dict.

(** ** The server object, the clock and the command monad *)

(** The fields of [RedisServer] that the commands use.  [running] and
    [socket] belong to the accept loop and are left out: the model is of a
    running server. *)
Record RedisServer : Type := mkServer {
  store : Dict.dict string;
  expiry_times : Dict.dict Q;
  connected_clients : Z;
  total_commands : Z
}.

(** [RedisServer.__init__]. *)
Definition init : RedisServer :=
  {| store := Dict.empty; expiry_times := Dict.empty;
     connected_clients := 0; total_commands := 0 |}.

Definition with_store (d : Dict.dict string) (s : RedisServer) : RedisServer :=
  {| store := d; expiry_times := expiry_times s;
     connected_clients := connected_clients s;
     total_commands := total_commands s |}.

Definition with_expiry_times (d : Dict.dict Q) (s : RedisServer) : RedisServer :=
  {| store := store s; expiry_times := d;
     connected_clients := connected_clients s;
     total_commands := total_commands s |}.

Definition with_connected_clients (n : Z) (s : RedisServer) : RedisServer :=
  {| store := store s; expiry_times := expiry_times s;
     connected_clients := n; total_commands := total_commands s |}.

Definition with_total_commands (n : Z) (s : RedisServer) : RedisServer :=
  {| store := store s; expiry_times := expiry_times s;
     connected_clients := connected_clients s; total_commands := n |}.

(** The clock oracle: [clk n] is what the [n]-th call of [time.time()]
    returns. *)
Definition Clock : Type := nat -> Q.

(** A clock that stands still at [now]. *)
Definition frozen (now : Q) : Clock := fun _ => now.

(** The state a method runs in: the object and how many times the clock
    has been read. *)
Record World : Type := mkWorld {
  self : RedisServer;
  reads : nat
}.

Inductive Exception : Type :=
| KeyError (key : string)
| OverflowError.

(** [str(e)]: the quoted key for a [KeyError], the interpreter's message
    for an [OverflowError]. *)
Definition str_of_exception (e : Exception) : string :=
  match e with
  | KeyError key => "'" ++ key ++ "'"
  | OverflowError => "int too large to convert to float"
  end.

Definition M (A : Type) : Type := Clock -> World -> (Exception + A) * World.

Definition ret {A} (a : A) : M A := fun _ w => (inr a, w).

Definition bind {A B} (m : M A) (f : A -> M B) : M B :=
  fun clk w =>
    match m clk w with
    | (inr a, w') => f a clk w'
    | (inl e, w') => (inl e, w')
    end.

Definition raise {A} (e : Exception) : M A := fun _ w => (inl e, w).

(** [try: m  except Exception as e: h e]. *)
Definition try_except {A} (m : M A) (h : Exception -> M A) : M A :=
  fun clk w =>
    match m clk w with
    | (inr a, w') => (inr a, w')
    | (inl e, w') => h e clk w'
    end.

(** [try: m  finally: f]. *)
Definition try_finally {A} (m : M A) (f : M unit) : M A :=
  fun clk w =>
    match m clk w with
    | (r, w') =>
        match f clk w' with
        | (inr _, w'') => (r, w'')
        | (inl e, w'') => (inl e, w'')
        end
    end.

Declare Scope monad_scope.
Delimit Scope monad_scope with monad.
Notation "x <- m ;; k" := (bind m (fun x => k))
  (at level 61, m at next level, right associativity) : monad_scope.
Notation "m ;; k" := (bind m (fun _ => k))
  (at level 61, right associativity) : monad_scope.
Open Scope monad_scope.

(** [time.time()]. *)
Definition time_time : M Q :=
  fun clk w => (inr (clk (reads w)), {| self := self w; reads := S (reads w) |}).

Definition get_self : M RedisServer := fun _ w => (inr (self w), w).

Definition modify (f : RedisServer -> RedisServer) : M unit :=
  fun _ w => (inr tt, {| self := f (self w); reads := reads w |}).

(** [if c: m]. *)
Definition when (c : bool) (m : M unit) : M unit :=
  if c then m else ret tt.

(** [del self.store[key]] and [del self.expiry_times[key]]. *)
Definition del_store (key : string) : M unit :=
  s <- get_self ;;
  if Dict.contains key (store s)
  then modify (with_store (Dict.remove key (store s)))
  else raise (KeyError key).

Definition del_expiry_times (key : string) : M unit :=
  s <- get_self ;;
  if Dict.contains key (expiry_times s)
  then modify (with_expiry_times (Dict.remove key (expiry_times s)))
  else raise (KeyError key).

(** [self.store[key]]. *)
Definition store_item (key : string) : M string :=
  s <- get_self ;;
  match Dict.get key (store s) with
  | Some value => ret value
  | None => raise (KeyError key)
  end.

(** [x + n] for a float [x] and an integer [n]: the exact sum, which is
    what float arithmetic gives when [n] and the sum are binary64 values. *)
Definition float_add_int (x : Q) (n : Z) : M Q :=
  match Py.float_of_int n with
  | Some y => ret (x + y)%Q
  | None => raise OverflowError
  end.

(** ** Reply shapes *)

Definition simple (text : string) : string := "+" ++ text ++ Py.CRLF.
Definition error (text : string) : string := "-ERR " ++ text ++ Py.CRLF.
Definition integer (n : Z) : string := ":" ++ Py.str n ++ Py.CRLF.
Definition null_bulk : string := "$-1" ++ Py.CRLF.
Definition bulk (value : string) : string :=
  "$" ++ Py.str (Py.len value) ++ Py.CRLF ++ value ++ Py.CRLF.

Definition wrong_arity (cmd : string) : string :=
  error ("wrong number of arguments for '" ++ cmd ++ "' command").

Arguments simple : simpl never.
Arguments error : simpl never.
Arguments integer : simpl never.
Arguments null_bulk : simpl never.
Arguments bulk : simpl never.
Arguments wrong_arity : simpl never.

(** ** The methods of [RedisServer] *)

Definition _is_expired (key : string) : M bool :=
  s <- get_self ;;
  match Dict.get key (expiry_times s) with
  | None => ret false
  | Some expiry => now <- time_time ;; ret (Py.gt now expiry)
  end.

(** [key not in self.store or self._is_expired(key)], with the
    short-circuit of [or]. *)
Definition absent_or_expired (key : string) : M bool :=
  s <- get_self ;;
  if negb (Dict.contains key (store s)) then ret true else _is_expired key.

(** The two guarded deletions that [GET], [DEL] and the sweeper share. *)
Definition discard_store (key : string) : M unit :=
  s <- get_self ;;
  when (Dict.contains key (store s)) (del_store key).

Definition discard_expiry_times (key : string) : M unit :=
  s <- get_self ;;
  when (Dict.contains key (expiry_times s)) (del_expiry_times key).

Definition _cmd_set (args : list string) : M string :=
  match args with
  | key :: first :: more =>
      let value := Py.join " " (first :: more) in
      modify (fun s => with_store (Dict.set key value (store s)) s) ;;
      discard_expiry_times key ;;
      ret (simple "OK")
  | _ => ret (wrong_arity "set")
  end.

Definition _cmd_get (args : list string) : M string :=
  match args with
  | [key] =>
      c <- absent_or_expired key ;;
      if c then
        e <- _is_expired key ;;
        when e (discard_store key ;; discard_expiry_times key) ;;
        ret null_bulk
      else
        value <- store_item key ;;
        ret (bulk value)
  | _ => ret (wrong_arity "get")
  end.

Fixpoint del_loop (args : list string) (deleted_count : Z) : M Z :=
  match args with
  | [] => ret deleted_count
  | key :: rest =>
      s <- get_self ;;
      deleted_count' <-
        (if Dict.contains key (store s)
         then del_store key ;; ret (deleted_count + 1)%Z
         else ret deleted_count) ;;
      discard_expiry_times key ;;
      del_loop rest deleted_count'
  end.

Definition _cmd_del (args : list string) : M string :=
  match args with
  | [] => ret (wrong_arity "del")
  | _ =>
      deleted_count <- del_loop args 0%Z ;;
      ret (integer deleted_count)
  end.

Definition _cmd_expire (args : list string) : M string :=
  match args with
  | [key; seconds_str] =>
      match Py.int_of_str seconds_str with
      | None => ret (error "value is not an integer or out of range")
      | Some seconds =>
          c <- absent_or_expired key ;;
          if c then ret (integer 0)
          else
            now <- time_time ;;
            expiry <- float_add_int now seconds ;;
            modify (fun s =>
              with_expiry_times (Dict.set key expiry (expiry_times s)) s) ;;
            ret (integer 1)
      end
  | _ => ret (wrong_arity "expire")
  end.

(** [self.expiry_times[key] - time.time()] once the key is known to have
    an expiry; [None] when [key not in self.expiry_times].  The difference
    is exact, which is what float arithmetic gives when it is a binary64
    value. *)
Definition time_left (key : string) : M (option Q) :=
  s <- get_self ;;
  match Dict.get key (expiry_times s) with
  | None => ret None
  | Some expiry => now <- time_time ;; ret (Some (expiry - now)%Q)
  end.

Definition _cmd_ttl (args : list string) : M string :=
  match args with
  | [key] =>
      c <- absent_or_expired key ;;
      if c then ret (integer (-2))
      else
        left <- time_left key ;;
        match left with
        | None => ret (integer (-1))
        | Some d =>
            let remaining := Py.int_of_float d in
            ret (integer (Z.max 0 remaining))
        end
  | _ => ret (wrong_arity "ttl")
  end.

(** The product by 1000 is exact as well: the model is of remaining times
    whose milliseconds are a binary64 value (beyond the range of a float
    the product is infinite and [int] raises). *)
Definition _cmd_pttl (args : list string) : M string :=
  match args with
  | [key] =>
      c <- absent_or_expired key ;;
      if c then ret (integer (-2))
      else
        left <- time_left key ;;
        match left with
        | None => ret (integer (-1))
        | Some d =>
            let remaining_ms := Py.int_of_float (d * inject_Z 1000)%Q in
            ret (integer (Z.max 0 remaining_ms))
        end
  | _ => ret (wrong_arity "pttl")
  end.

Fixpoint keys_loop (ks current_keys : list string) : M (list string) :=
  match ks with
  | [] => ret current_keys
  | key :: rest =>
      e <- _is_expired key ;;
      keys_loop rest (if negb e then current_keys ++ [key] else current_keys)%list
  end.

(** The loop [for key in current_keys: result += ...]. *)
Definition keys_reply (current_keys : list string) : string :=
  match current_keys with
  | [] => "*0" ++ Py.CRLF
  | _ =>
      fold_left (fun result key => result ++ bulk key) current_keys
        ("*" ++ Py.str (Z.of_nat (List.length current_keys)) ++ Py.CRLF)
  end.

Definition _cmd_keys (args : list string) : M string :=
  s <- get_self ;;
  current_keys <- keys_loop (Dict.keys (store s)) [] ;;
  ret (keys_reply current_keys).

Fixpoint exists_loop (args : list string) (count : Z) : M Z :=
  match args with
  | [] => ret count
  | key :: rest =>
      s <- get_self ;;
      live <- (if Dict.contains key (store s)
               then e <- _is_expired key ;; ret (negb e)
               else ret false) ;;
      exists_loop rest (if live then count + 1 else count)%Z
  end.

Definition _cmd_exists (args : list string) : M string :=
  match args with
  | [] => ret (wrong_arity "exists")
  | _ =>
      count <- exists_loop args 0%Z ;;
      ret (integer count)
  end.

Definition _cmd_type (args : list string) : M string :=
  match args with
  | [key] =>
      c <- absent_or_expired key ;;
      if c then ret (simple "none") else ret (simple "string")
  | _ => ret (wrong_arity "type")
  end.

Definition _cmd_flushall : M string :=
  modify (with_store Dict.empty) ;;
  modify (with_expiry_times Dict.empty) ;;
  ret (simple "OK").

Definition info_text (uptime : Z) (s : RedisServer) : string :=
  "# Server" ++ Py.LF ++
  "redis_version:1.0.0-custom" ++ Py.LF ++
  "uptime_in_seconds:" ++ Py.str uptime ++ Py.LF ++
  "connected_clients:" ++ Py.str (connected_clients s) ++ Py.LF ++
  "total_commands_processed:" ++ Py.str (total_commands s) ++ Py.LF ++
  Py.LF ++
  "# Memory" ++ Py.LF ++
  "used_memory:" ++ Py.str (Dict.size (store s)) ++ Py.LF ++
  Py.LF ++
  "# Stats" ++ Py.LF ++
  "total_connections_received:" ++ Py.str (total_commands s) ++ Py.LF ++
  "keyspace_hits:0" ++ Py.LF ++
  "keyspace_misses:0" ++ Py.LF.

Definition _cmd_info : M string :=
  now <- time_time ;;
  s <- get_self ;;
  ret (bulk (info_text (Py.int_of_float now) s)).

(** The [if]/[elif] chain of [_process_command]. *)
Definition dispatch (command : string) (args : list string) : M string :=
  if String.eqb command "SET" then _cmd_set args
  else if String.eqb command "GET" then _cmd_get args
  else if String.eqb command "DEL" then _cmd_del args
  else if String.eqb command "EXPIRE" then _cmd_expire args
  else if String.eqb command "TTL" then _cmd_ttl args
  else if String.eqb command "PTTL" then _cmd_pttl args
  else if String.eqb command "PING" then ret (simple "PONG")
  else if String.eqb command "ECHO" then
    ret (match args with
         | [] => simple ""
         | _ => simple (Py.join " " args)
         end)
  else if String.eqb command "KEYS" then _cmd_keys args
  else if String.eqb command "EXISTS" then _cmd_exists args
  else if String.eqb command "TYPE" then _cmd_type args
  else if String.eqb command "FLUSHALL" then _cmd_flushall
  else if String.eqb command "INFO" then _cmd_info
  else ret (error ("unknown command '" ++ command ++ "'")).

Definition _process_command (command_line : string) : M string :=
  modify (fun s => with_total_commands (total_commands s + 1)%Z s) ;;
  match Py.split command_line with
  | [] => ret (error "empty command")
  | name :: args =>
      let command := Py.upper name in
      try_except (dispatch command args)
                 (fun e => ret (error (str_of_exception e)))
  end.

(** ** The sweeper: one pass of the loop of [_cleanup_expired_keys] *)

Fixpoint sweep_loop (expired_keys : list string) : M unit :=
  match expired_keys with
  | [] => ret tt
  | key :: rest =>
      discard_store key ;;
      discard_expiry_times key ;;
      sweep_loop rest
  end.

Definition cleanup_cycle : M unit :=
  current_time <- time_time ;;
  s <- get_self ;;
  let expired_keys :=
    map fst (filter (fun item => Py.gt current_time (snd item))
                    (Dict.items (expiry_times s))) in
  sweep_loop expired_keys.

(** ** The session: [_handle_client] *)

(** The loop [while '\n' in buffer], with the replies it sends, in order.
    Every turn removes a line feed from the buffer, so a fuel of one more
    than the length of the buffer is never used up. *)
Fixpoint drain (fuel : nat) (buffer : string) (sent : list string)
  : M (string * list string) :=
  match fuel with
  | O => ret (buffer, sent)
  | S fuel' =>
      match Py.split_first_lf buffer with
      | None => ret (buffer, sent)
      | Some (line, buffer') =>
          let command_line := Py.strip line in
          if String.eqb command_line "" then drain fuel' buffer' sent
          else
            response <- _process_command command_line ;;
            drain fuel' buffer' (sent ++ [response])%list
      end
  end.

(** One turn of the receive loop on the bytes [data]. *)
Definition on_data (buffer data : string) (sent : list string)
  : M (string * list string) :=
  let buffer := buffer ++ data in
  drain (S (String.length buffer)) buffer sent.

(** The receive loop over what the successive [recv] calls return; an
    empty read, or the end of the list, is the peer closing.  The reads
    are taken as text: for ASCII bytes [decode('utf-8')] is the identity
    (a read that does not decode ends the real session and is outside the
    model). *)
Fixpoint recv_loop (chunks : list string) (buffer : string) (sent : list string)
  : M (list string) :=
  match chunks with
  | [] => ret sent
  | data :: later =>
      if String.eqb data "" then ret sent
      else
        bs <- on_data buffer data sent ;;
        recv_loop later (fst bs) (snd bs)
  end.

Definition banner : string := "+OK Redis server ready" ++ Py.CRLF.

(** [_handle_client] returns, in the model, everything it sent. *)
Definition _handle_client (chunks : list string) : M (list string) :=
  modify (fun s => with_connected_clients (connected_clients s + 1)%Z s) ;;
  try_finally
    (recv_loop chunks "" [banner])
    (modify (fun s => with_connected_clients (connected_clients s - 1)%Z s)).

(** ** Vocabulary of the statements *)

(** The reply of a run and the object it leaves. *)
Definition reply_of {A} (r : (Exception + A) * World) : Exception + A := fst r.
Definition server_of {A} (r : (Exception + A) * World) : RedisServer :=
  self (snd r).

(** A key is expired at [now] when it has an expiry instant that [now]
    exceeds: the test of [_is_expired] at one clock value. *)
Definition expired_at (now : Q) (key : string) (s : RedisServer) : bool :=
  match Dict.get key (expiry_times s) with
  | None => false
  | Some expiry => Py.gt now expiry
  end.

(** A key is live at [now] when it is in the value map and not expired. *)
Definition live_at (now : Q) (key : string) (s : RedisServer) : bool :=
  Dict.contains key (store s) && negb (expired_at now key s).

(** The object is unchanged as far as the two maps go. *)
Definition same_maps (s s' : RedisServer) : Prop :=
  store s' = store s /\ expiry_times s' = expiry_times s.

(** The keys of the expiry map are keys of the value map. *)
Definition expiry_within_store (s : RedisServer) : Prop :=
  forall key, Dict.contains key (expiry_times s) = true ->
              Dict.contains key (store s) = true.

(** What the two guarded deletions of a key leave. *)
Definition purge (key : string) (s : RedisServer) : RedisServer :=
  with_expiry_times (Dict.remove key (expiry_times s))
    (with_store (Dict.remove key (store s)) s).

Definition purge_all (keys : list string) (s : RedisServer) : RedisServer :=
  fold_left (fun s key => purge key s) keys s.

(** What [SET key value] leaves. *)
Definition assign (key value : string) (s : RedisServer) : RedisServer :=
  with_expiry_times (Dict.remove key (expiry_times s))
    (with_store (Dict.set key value (store s)) s).

(** The number of distinct argument keys that are in a dictionary. *)
Definition present_count {V} (args : list string) (d : Dict.dict V) : Z :=
  Z.of_nat (List.length (filter (fun key => Dict.contains key d)
                                (nodup string_dec args))).

(** The number of arguments that name a live key. *)
Definition live_count (now : Q) (args : list string) (s : RedisServer) : Z :=
  Z.of_nat (List.length (filter (fun key => live_at now key s) args)).

(** The keys of the value map that are not expired, in the map's order. *)
Definition live_keys (now : Q) (s : RedisServer) : list string :=
  filter (fun key => negb (expired_at now key s)) (Dict.keys (store s)).

(** The effect of one command on the object, whatever the clock says. *)
Inductive store_step (s : RedisServer) : RedisServer -> Prop :=
| step_none : store_step s s
| step_assign key value : store_step s (assign key value s)
| step_purge keys : store_step s (purge_all keys s)
| step_expire key t :
    Dict.contains key (store s) = true ->
    store_step s (with_expiry_times (Dict.set key t (expiry_times s)) s)
| step_flush :
    store_step s (with_expiry_times Dict.empty (with_store Dict.empty s)).

(** A computation that returns, having only read the object and the
    clock; and one that ends, with a value or an exception, having made
    one [store_step]. *)
Definition reads_only {A} (m : M A) : Prop :=
  forall clk w, exists a n,
    m clk w = (inr a, {| self := self w; reads := n |}).

Definition steps {A} (m : M A) : Prop :=
  forall clk w, exists r w',
    m clk w = (r, w') /\ store_step (self w) (self w').

(** A computation that returns and keeps [expiry_within_store]. *)
Definition preserves {A} (m : M A) : Prop :=
  forall clk w,
    expiry_within_store (self w) ->
    exists a w', m clk w = (inr a, w') /\ expiry_within_store (self w').

(** The command names of the [if]/[elif] chain. *)
Definition commands : list string :=
  ["SET"; "GET"; "DEL"; "EXPIRE"; "TTL"; "PTTL"; "PING"; "ECHO"; "KEYS";
   "EXISTS"; "TYPE"; "FLUSHALL"; "INFO"].

Definition recognized (command : string) : bool :=
  existsb (String.eqb command) commands.

(** The commands whose handler starts with a test on [len(args)]. *)
Definition checks_arity (command : string) : bool :=
  existsb (String.eqb command)
    ["SET"; "GET"; "DEL"; "EXPIRE"; "TTL"; "PTTL"; "EXISTS"; "TYPE"].

(** The arity table of the specification (section 4.3): whether a command
    accepts [n] arguments.  [KEYS] and [ECHO] accept any number. *)
Definition declared_arity (command : string) (n : nat) : bool :=
  if String.eqb command "SET" then (2 <=? n)%nat
  else if String.eqb command "GET" then (n =? 1)%nat
  else if String.eqb command "DEL" then (1 <=? n)%nat
  else if String.eqb command "EXPIRE" then (n =? 2)%nat
  else if String.eqb command "TTL" then (n =? 1)%nat
  else if String.eqb command "PTTL" then (n =? 1)%nat
  else if String.eqb command "PING" then (n =? 0)%nat
  else if String.eqb command "EXISTS" then (1 <=? n)%nat
  else if String.eqb command "TYPE" then (n =? 1)%nat
  else if String.eqb command "FLUSHALL" then (n =? 0)%nat
  else if String.eqb command "INFO" then (n =? 0)%nat
  else true.

(** A string of blanks only. *)
Fixpoint all_space (s : string) : bool :=
  match s with
  | "" => true
  | String c s' => Py.is_space c && all_space s'
  end.

(** Several command lines sent in one write: each followed by a line feed. *)
Fixpoint pipelined (lines : list string) : string :=
  match lines with
  | [] => ""
  | line :: rest => line ++ Py.LF ++ pipelined rest
  end.

(** The lines that are commands: trimmed, and not empty. *)
Definition command_lines (lines : list string) : list string :=
  filter (fun command_line => negb (String.eqb command_line ""))
         (map Py.strip lines).

(** Answering command lines one after the other. *)
Fixpoint answer_all (command_lines : list string) (sent : list string)
  : M (list string) :=
  match command_lines with
  | [] => ret sent
  | command_line :: rest =>
      response <- _process_command command_line ;;
      answer_all rest (sent ++ [response])%list
  end.

(** What can happen to the object: a command line arrives, a client
    session runs, the sweeper makes a pass. *)
Inductive Event : Type :=
| Line (command_line : string)
| Client (chunks : list string)
| Sweep.

Definition run_event (e : Event) : M unit :=
  match e with
  | Line command_line => _process_command command_line ;; ret tt
  | Client chunks => _handle_client chunks ;; ret tt
  | Sweep => cleanup_cycle
  end.

Fixpoint run_events (events : list Event) : M unit :=
  match events with
  | [] => ret tt
  | e :: rest => run_event e ;; run_events rest
  end.

(** The object and the clock count after some events, from a fresh server
    whose clock stands at [now]. *)
Definition world0 : World := {| self := init; reads := 0 |}.

Definition after (events : list Event) (now : Q) : World :=
  snd (run_events events (frozen now) world0).

(** The value [TTL] reports at [now], with the remaining time rounded
    down. *)
Definition ttl_at (now : Q) (key : string) (s : RedisServer) : Z :=
  if live_at now key s then
    match Dict.get key (expiry_times s) with
    | None => -1
    | Some expiry => Qfloor (expiry - now)
    end
  else -2.

(** ** Further vocabulary *)

(** The keys that one pass of the sweeper finds expired at
    [current_time]: the list comprehension of [_cleanup_expired_keys]. *)
Definition expired_keys (current_time : Q) (s : RedisServer) : list string :=
  map fst (filter (fun item => Py.gt current_time (snd item))
                  (Dict.items (expiry_times s))).

(** [key in keys]. *)
Definition named (key : string) (keys : list string) : bool :=
  existsb (String.eqb key) keys.

(** The commands that only read the maps and the clock. *)
Definition readers : list string :=
  ["TTL"; "PTTL"; "KEYS"; "EXISTS"; "TYPE"; "INFO"; "PING"; "ECHO"].

(** The arguments a command uses as keys: all of them for [DEL], the
    first one for [SET], [GET] and [EXPIRE]. *)
Definition keys_named (command : string) (args : list string) : list string :=
  if String.eqb command "DEL" then args
  else if String.eqb command "SET" || String.eqb command "GET"
          || String.eqb command "EXPIRE"
       then firstn 1 args
       else [].

(** The object after the two guarded deletions of some of [keys], or
    untouched. *)
Inductive removes (keys : list string) (s : RedisServer)
  : RedisServer -> Prop :=
| removes_none : removes keys s s
| removes_some ks : incl ks keys -> removes keys s (purge_all ks s).

(** What a client has sent before it closes: the reads up to the first
    empty one, put end to end. *)
Fixpoint received (chunks : list string) : string :=
  match chunks with
  | [] => ""
  | data :: later =>
      if String.eqb data "" then "" else data ++ received later
  end.

(** The complete lines of a text, without their line feeds, and what
    follows the last line feed. *)
Fixpoint lines_of (s : string) : list string * string :=
  match s with
  | "" => ([], "")
  | String c s' =>
      let (lines, tail) := lines_of s' in
      if Ascii.eqb c (ascii_of_nat 10) then ("" :: lines, tail)
      else
        match lines with
        | [] => ([], String c tail)
        | line :: rest => (String c line :: rest, tail)
        end
  end.

(** A reply of the wire protocol: a type character, a body, and the
    carriage return and line feed that end it. *)
Definition framed (reply : string) : Prop :=
  exists c body,
    reply = String c (body ++ Py.CRLF) /\
    In c ["+"; "-"; ":"; "$"; "*"]%char.

(** Whatever a computation returns satisfies [P]. *)
Definition yields {A} (P : A -> Prop) (m : M A) : Prop :=
  forall clk w,
    match fst (m clk w) with
    | inr a => P a
    | inl _ => True
    end.

(** The reply that [_process_command] gives to a line without a token. *)
Definition empty_command : string := error "empty command".

(** A token: a string that is not empty and holds no blank. *)
Fixpoint no_space (s : string) : bool :=
  match s with
  | "" => true
  | String c s' => negb (Py.is_space c) && no_space s'
  end.

Definition is_token (s : string) : bool :=
  negb (String.eqb s "") && no_space s.

(** The object holds every key once in each dictionary, as a Python
    dictionary does. *)
Definition well_formed (s : RedisServer) : Prop :=
  NoDup (Dict.keys (store s)) /\ NoDup (Dict.keys (expiry_times s)).

(** A computation that returns and keeps a property of the object. *)
Definition keeps (I : RedisServer -> Prop) {A} (m : M A) : Prop :=
  forall clk w,
    I (self w) -> exists a w', m clk w = (inr a, w') /\ I (self w').

(** The time that remains for a key that is live at [now] is a binary64
    value, so that the float subtraction [expiry - time.time()] of TTL and
    PTTL is exact; and the same for its product by 1000, which PTTL
    computes.  Both hold of a key for which no subtraction is made. *)
Definition exact_remaining (now : Q) (key : string) (s : RedisServer) : bool :=
  if live_at now key s then
    match Dict.get key (expiry_times s) with
    | None => true
    | Some expiry => Py.is_float (expiry - now)
    end
  else true.

Definition exact_milliseconds (now : Q) (key : string) (s : RedisServer)
  : bool :=
  if live_at now key s then
    match Dict.get key (expiry_times s) with
    | None => true
    | Some expiry => Py.is_float ((expiry - now) * inject_Z 1000)
    end
  else true.

(** Every read of a session is ASCII text. *)
Definition ascii_reads (chunks : list string) : bool :=
  forallb Py.isascii chunks.

(** * Properties *)

(** ** ASCII text and binary64 values *)

Example isascii_examples :
  Py.isascii "SET a 1" = true /\
  Py.isascii ("flushall" ++ String (ascii_of_nat 194)
                              (String (ascii_of_nat 160) "x")) = false.
Proof. vm_compute. split; reflexivity. Qed.

Lemma is_float_Qeq x y : (x == y)%Q -> Py.is_float x = Py.is_float y.
Proof. intros H. unfold Py.is_float. now rewrite (Qred_complete _ _ H). Qed.

Lemma Qred_inject_Z n : Qred (inject_Z n) = inject_Z n.
Proof.
  unfold Qred, inject_Z.
  pose proof (Z.ggcd_gcd n 1) as Hg.
  pose proof (Z.ggcd_correct_divisors n 1) as Hd.
  destruct (Z.ggcd n 1) as [g [aa bb]]. cbn [fst snd] in *.
  rewrite Z.gcd_1_r in Hg. subst g. destruct Hd as [Ha Hb].
  rewrite Z.mul_1_l in Ha, Hb. now subst aa bb.
Qed.

(** The integers below [2^53] are floats. *)
Lemma is_float_small_int n :
  (Z.abs n < 2 ^ 53)%Z -> Py.is_float (inject_Z n) = true.
Proof.
  intros H. unfold Py.is_float. rewrite Qred_inject_Z.
  cbn [inject_Z Qnum Qden].
  assert (Hl : (Z.log2 (Z.abs n) + 1 - 53 <= 0)%Z).
  { destruct (Z.eq_dec (Z.abs n) 0) as [->|Hn]; [cbn; lia|].
    assert (Z.log2 (Z.abs n) < 53)%Z by (apply Z.log2_lt_pow2; lia). lia. }
  rewrite Z.max_l by lia. rewrite Z.mod_1_r.
  assert (Hbig : (2 ^ 53 < 2 ^ 1024)%Z) by (apply Z.pow_lt_mono_r; lia).
  rewrite (proj2 (Z.ltb_lt _ _) (Z.lt_trans _ _ _ H Hbig)). reflexivity.
Qed.

(** Halves and the largest and smallest floats are floats; a tenth, an
    integer of 54 significant bits and anything from [2^1024 - 2^970] on
    are not. *)
Example is_float_examples :
  Py.is_float 0 = true /\
  Py.is_float (1 # 2) = true /\
  Py.is_float (- (19 # 2)) = true /\
  Py.is_float (inject_Z (2 ^ 53)) = true /\
  Py.is_float (inject_Z (2 ^ 53 + 1)) = false /\
  Py.is_float (1 # 10) = false /\
  Py.is_float (inject_Z (2 ^ 1024 - 2 ^ 971)) = true /\
  Py.is_float (inject_Z Py.float_limit) = false /\
  Py.is_float (inject_Z (2 ^ 1024)) = false /\
  Py.is_float (1 # 2 ^ 1074) = true /\
  Py.is_float (1 # 2 ^ 1075) = false.
Proof. vm_compute. repeat split. Qed.

(** ** Dictionaries *)

Module DictFacts.
Section DictFacts.

Context {V : Type}.
Implicit Types (d : Dict.dict V) (k key : string) (v : V).

Lemma get_set_same key v d : Dict.get key (Dict.set key v d) = Some v.
Proof.
  induction d as [|[k v'] d IH]; simpl.
  - now rewrite String.eqb_refl.
  - destruct (String.eqb key k) eqn:E; simpl; rewrite ?String.eqb_refl, ?E; auto.
Qed.

Lemma get_set_other key k v d :
  k <> key -> Dict.get k (Dict.set key v d) = Dict.get k d.
Proof.
  intros Hne. induction d as [|[k' v'] d IH]; simpl.
  - apply String.eqb_neq in Hne. now rewrite Hne.
  - destruct (String.eqb key k') eqn:E; simpl.
    + apply String.eqb_eq in E. subst k'.
      apply String.eqb_neq in Hne. now rewrite Hne.
    + now rewrite IH.
Qed.

Lemma get_remove_same key d : Dict.get key (Dict.remove key d) = None.
Proof.
  induction d as [|[k v] d IH]; simpl; auto.
  destruct (String.eqb key k) eqn:E; simpl; rewrite ?E; auto.
Qed.

Lemma get_remove_other key k d :
  k <> key -> Dict.get k (Dict.remove key d) = Dict.get k d.
Proof.
  intros Hne. induction d as [|[k' v'] d IH]; simpl; auto.
  destruct (String.eqb key k') eqn:E; simpl.
  - apply String.eqb_eq in E. subst k'.
    apply String.eqb_neq in Hne. now rewrite Hne.
  - now rewrite IH.
Qed.

Lemma contains_set_same key v d : Dict.contains key (Dict.set key v d) = true.
Proof. unfold Dict.contains. now rewrite get_set_same. Qed.

Lemma contains_set_other key k v d :
  k <> key -> Dict.contains k (Dict.set key v d) = Dict.contains k d.
Proof. intros. unfold Dict.contains. now rewrite get_set_other. Qed.

Lemma contains_remove_same key d : Dict.contains key (Dict.remove key d) = false.
Proof. unfold Dict.contains. now rewrite get_remove_same. Qed.

Lemma contains_remove_other key k d :
  k <> key -> Dict.contains k (Dict.remove key d) = Dict.contains k d.
Proof. intros. unfold Dict.contains. now rewrite get_remove_other. Qed.

(** Removing a key never adds one, and assigning never loses one. *)
Lemma contains_remove_true key k d :
  Dict.contains k (Dict.remove key d) = true -> Dict.contains k d = true.
Proof.
  destruct (string_dec k key) as [->|Hne].
  - now rewrite contains_remove_same.
  - now rewrite contains_remove_other.
Qed.

Lemma contains_set_true key k v d :
  Dict.contains k d = true -> Dict.contains k (Dict.set key v d) = true.
Proof.
  destruct (string_dec k key) as [->|Hne].
  - now rewrite contains_set_same.
  - now rewrite contains_set_other.
Qed.

Lemma remove_absent key d : Dict.contains key d = false -> Dict.remove key d = d.
Proof.
  unfold Dict.contains.
  induction d as [|[k v] d IH]; simpl; auto.
  destruct (String.eqb key k) eqn:E; [discriminate|].
  intros H. now rewrite IH.
Qed.

Lemma contains_In key d : Dict.contains key d = true <-> In key (Dict.keys d).
Proof.
  unfold Dict.contains.
  induction d as [|[k v] d IH]; simpl.
  - split; [discriminate | tauto].
  - destruct (String.eqb key k) eqn:E.
    + apply String.eqb_eq in E. subst. tauto.
    + apply String.eqb_neq in E. rewrite IH.
      split; [tauto | intros [->|]; [congruence | assumption]].
Qed.

(** A dictionary holds a key once, and the operations keep it so. *)
Lemma keys_remove_incl key k d :
  In k (Dict.keys (Dict.remove key d)) -> In k (Dict.keys d).
Proof. rewrite <- !contains_In. apply contains_remove_true. Qed.

Lemma NoDup_keys_remove key d :
  NoDup (Dict.keys d) -> NoDup (Dict.keys (Dict.remove key d)).
Proof.
  induction d as [|[k v] d IH]; simpl; auto.
  intros H. inversion H as [|? ? Hnin Hnd]; subst.
  destruct (String.eqb key k); simpl; auto.
  constructor; auto. intros Hin. apply Hnin. eapply keys_remove_incl, Hin.
Qed.

Lemma NoDup_keys_set key v d :
  NoDup (Dict.keys d) -> NoDup (Dict.keys (Dict.set key v d)).
Proof.
  induction d as [|[k v'] d IH]; simpl.
  - intros _. constructor; [tauto | constructor].
  - intros H. inversion H as [|? ? Hnin Hnd]; subst.
    destruct (String.eqb key k) eqn:E; simpl.
    + apply String.eqb_eq in E. subst. now constructor.
    + constructor; auto.
      rewrite <- contains_In in *. apply String.eqb_neq in E.
      rewrite contains_set_other; auto.
Qed.

(** Counting the distinct argument keys that are present, one argument
    at a time. *)
Lemma filter_contains_remove_notin key d (l : list string) :
  ~ In key l ->
  filter (fun k => Dict.contains k (Dict.remove key d)) l =
  filter (fun k => Dict.contains k d) l.
Proof.
  intros Hnin. apply filter_ext_in. intros k Hk.
  apply contains_remove_other. intros ->. contradiction.
Qed.

Lemma filter_contains_remove_in key d (l : list string) :
  NoDup l -> In key l -> Dict.contains key d = true ->
  List.length (filter (fun k => Dict.contains k d) l) =
  S (List.length (filter (fun k => Dict.contains k (Dict.remove key d)) l)).
Proof.
  intros Hnd Hin Hc. induction l as [|x l IH]; simpl; [contradiction|].
  inversion Hnd as [|? ? Hx Hl]; subst.
  destruct (string_dec x key) as [->|Hne].
  - rewrite Hc, contains_remove_same. simpl.
    now rewrite filter_contains_remove_notin.
  - rewrite (contains_remove_other key x d Hne).
    destruct Hin as [Heq|Hin]; [congruence|].
    destruct (Dict.contains x d); simpl; rewrite IH; auto.
Qed.

Lemma present_count_cons key rest d :
  present_count (key :: rest) d =
  ((if Dict.contains key d then 1 else 0) +
   present_count rest (Dict.remove key d))%Z.
Proof.
  unfold present_count. cbn [nodup].
  destruct (in_dec string_dec key rest) as [Hin|Hnin].
  - destruct (Dict.contains key d) eqn:Hc.
    + assert (H := filter_contains_remove_in key d (nodup string_dec rest)
                     (NoDup_nodup string_dec rest)
                     (proj2 (nodup_In string_dec rest key) Hin) Hc).
      rewrite H. lia.
    + now rewrite (remove_absent _ _ Hc).
  - rewrite (filter_contains_remove_notin key d (nodup string_dec rest))
      by now rewrite nodup_In.
    cbn [filter]. destruct (Dict.contains key d); cbn [List.length];
      rewrite ?Nat2Z.inj_succ; lia.
Qed.

End DictFacts.
End DictFacts.

Import DictFacts.

(** ** Running the monad *)

Lemma with_store_same s : with_store (store s) s = s.
Proof. now destruct s. Qed.

Lemma with_expiry_times_same s : with_expiry_times (expiry_times s) s = s.
Proof. now destruct s. Qed.

Lemma world_eta w : {| self := self w; reads := reads w |} = w.
Proof. now destruct w. Qed.


(** Unfolding a handler down to the dictionary operations. *)
Ltac run :=
  unfold reply_of, server_of, _cmd_set, _cmd_get, _cmd_ttl, _cmd_pttl,
    _cmd_type, _cmd_expire, _cmd_flushall, _cmd_info, time_left, store_item,
    float_add_int,
    absent_or_expired, _is_expired, discard_store, discard_expiry_times,
    del_store, del_expiry_times, when, bind, ret, raise, get_self, modify,
    time_time;
  cbn.

(** Case analysis on every dictionary lookup and clock comparison that a
    run is stuck on. *)
Ltac cases :=
  unfold Dict.contains in *;
  repeat (cbn;
    match goal with
    | H : ?x = _ |- context [match ?x with _ => _ end] => rewrite H
    | |- context [match Dict.get ?k ?d with _ => _ end] =>
        destruct (Dict.get k d) eqn:?
    | |- context [if Py.gt ?a ?b then _ else _] =>
        destruct (Py.gt a b) eqn:?
    | |- context [negb (Py.gt ?a ?b)] =>
        destruct (Py.gt a b) eqn:?
    end).

(** A key that is absent has nothing to delete. *)
Ltac absent :=
  repeat match goal with
    | H : Dict.get ?k ?d = None |- context [Dict.remove ?k ?d] =>
        rewrite (remove_absent k d) by (unfold Dict.contains; now rewrite H)
    end;
  cbn; rewrite ?with_store_same, ?with_expiry_times_same.

Lemma discard_store_run key clk w :
  discard_store key clk w =
  (inr tt, {| self := with_store (Dict.remove key (store (self w))) (self w);
              reads := reads w |}).
Proof.
  run. destruct (Dict.contains key (store (self w))) eqn:E; cbn.
  - now rewrite E.
  - now rewrite (remove_absent _ _ E), with_store_same, world_eta.
Qed.

Lemma discard_expiry_times_run key clk w :
  discard_expiry_times key clk w =
  (inr tt,
   {| self := with_expiry_times (Dict.remove key (expiry_times (self w))) (self w);
      reads := reads w |}).
Proof.
  run. destruct (Dict.contains key (expiry_times (self w))) eqn:E; cbn.
  - now rewrite E.
  - now rewrite (remove_absent _ _ E), with_expiry_times_same, world_eta.
Qed.


Lemma is_expired_run key clk w :
  exists n, _is_expired key clk w =
            (inr (expired_at (clk (reads w)) key (self w)),
             {| self := self w; reads := n |}).
Proof.
  destruct w as [s n]. unfold expired_at. run.
  destruct (Dict.get key (expiry_times s)); cbn; eexists; reflexivity.
Qed.


(** ** The handlers, run *)

Lemma _cmd_set_run key v vs clk w :
  _cmd_set (key :: v :: vs) clk w =
  (inr (simple "OK"),
   {| self := assign key (Py.join " " (v :: vs)) (self w); reads := reads w |}).
Proof.
  unfold _cmd_set, bind, modify. rewrite discard_expiry_times_run. reflexivity.
Qed.

Lemma _cmd_get_frozen key now w :
  exists n,
    _cmd_get [key] (frozen now) w =
    (inr (if live_at now key (self w)
          then match Dict.get key (store (self w)) with
               | Some value => bulk value
               | None => null_bulk
               end
          else null_bulk),
     {| self := if expired_at now key (self w) then purge key (self w) else self w;
        reads := n |}).
Proof.
  destruct w as [s n]. unfold live_at, expired_at, purge, frozen. run. cases;
    eexists; absent; reflexivity.
Qed.

Lemma float_of_int_in_range n :
  (Z.abs n < Py.float_limit)%Z -> Py.float_of_int n = Some (inject_Z n).
Proof.
  intros H. unfold Py.float_of_int.
  now rewrite (proj2 (Z.ltb_lt _ _) H).
Qed.

Lemma _cmd_expire_frozen key seconds_str seconds now w :
  Py.int_of_str seconds_str = Some seconds ->
  (Z.abs seconds < Py.float_limit)%Z ->
  exists n,
    _cmd_expire [key; seconds_str] (frozen now) w =
    (if live_at now key (self w)
     then (inr (integer 1),
           {| self := with_expiry_times
                        (Dict.set key (now + inject_Z seconds)%Q
                                  (expiry_times (self w))) (self w);
              reads := n |})
     else (inr (integer 0), {| self := self w; reads := n |})).
Proof.
  intros Hs Hrange. destruct w as [s n].
  unfold live_at, expired_at, frozen. run.
  rewrite Hs, (float_of_int_in_range _ Hrange). cases; eexists; reflexivity.
Qed.

Lemma _cmd_ttl_frozen key now w :
  exists n,
    _cmd_ttl [key] (frozen now) w =
    (inr (integer
            (if live_at now key (self w)
             then match Dict.get key (expiry_times (self w)) with
                  | None => -1
                  | Some expiry => Z.max 0 (Py.int_of_float (expiry - now))
                  end
             else -2)),
     {| self := self w; reads := n |}).
Proof.
  destruct w as [s n]. unfold live_at, expired_at, frozen. run. cases;
    eexists; reflexivity.
Qed.

Lemma _cmd_pttl_frozen key now w :
  exists n,
    _cmd_pttl [key] (frozen now) w =
    (inr (integer
            (if live_at now key (self w)
             then match Dict.get key (expiry_times (self w)) with
                  | None => -1
                  | Some expiry =>
                      Z.max 0 (Py.int_of_float ((expiry - now) * inject_Z 1000))
                  end
             else -2)),
     {| self := self w; reads := n |}).
Proof.
  destruct w as [s n]. unfold live_at, expired_at, frozen. run. cases;
    eexists; reflexivity.
Qed.

Lemma _cmd_type_frozen key now w :
  exists n,
    _cmd_type [key] (frozen now) w =
    (inr (simple (if live_at now key (self w) then "string" else "none")),
     {| self := self w; reads := n |}).
Proof.
  destruct w as [s n]. unfold live_at, expired_at, frozen. run. cases;
    eexists; reflexivity.
Qed.

Lemma exists_loop_frozen args now : forall count w,
  exists n,
    exists_loop args count (frozen now) w =
    (inr (count + live_count now args (self w))%Z,
     {| self := self w; reads := n |}).
Proof.
  induction args as [|key rest IH]; intros count w.
  - exists (reads w). cbn. unfold ret, live_count. cbn.
    now rewrite Z.add_0_r, world_eta.
  - cbn [exists_loop]. unfold bind at 1. unfold get_self at 1.
    unfold bind at 1.
    assert (Hlive : exists n,
      (if Dict.contains key (store (self w))
       then (e <- _is_expired key;; ret (negb e))
       else ret false) (frozen now) w =
      (inr (live_at now key (self w)), {| self := self w; reads := n |})).
    { unfold live_at. destruct (Dict.contains key (store (self w))); cbn.
      - destruct (is_expired_run key (frozen now) w) as [n E].
        exists n. unfold bind. rewrite E. reflexivity.
      - exists (reads w). unfold ret. now rewrite world_eta. }
    destruct Hlive as [n E]. rewrite E.
    destruct (IH (if live_at now key (self w) then (count + 1)%Z else count)
                 {| self := self w; reads := n |}) as [n' E'].
    exists n'. rewrite E'. cbn [self]. f_equal. f_equal.
    unfold live_count. cbn [filter].
    destruct (live_at now key (self w)); cbn [List.length];
      rewrite ?Nat2Z.inj_succ; lia.
Qed.

Lemma keys_loop_frozen ks now : forall current_keys w,
  exists n,
    keys_loop ks current_keys (frozen now) w =
    (inr (current_keys ++
          filter (fun key => negb (expired_at now key (self w))) ks)%list,
     {| self := self w; reads := n |}).
Proof.
  induction ks as [|key rest IH]; intros current_keys w.
  - exists (reads w). cbn. unfold ret. now rewrite app_nil_r, world_eta.
  - cbn [keys_loop]. unfold bind at 1.
    destruct (is_expired_run key (frozen now) w) as [n E]. rewrite E.
    change (frozen now (reads w)) with now.
    destruct (IH (if negb (expired_at now key (self w))
                  then (current_keys ++ [key])%list else current_keys)
                 {| self := self w; reads := n |}) as [n' E'].
    exists n'. rewrite E'. cbn [self filter]. f_equal. f_equal.
    destruct (negb (expired_at now key (self w))); cbn; auto.
    now rewrite <- app_assoc.
Qed.

Lemma _cmd_exists_frozen key rest now w :
  exists n,
    _cmd_exists (key :: rest) (frozen now) w =
    (inr (integer (live_count now (key :: rest) (self w))),
     {| self := self w; reads := n |}).
Proof.
  unfold _cmd_exists, bind.
  destruct (exists_loop_frozen (key :: rest) now 0%Z w) as [n E].
  exists n. rewrite E. reflexivity.
Qed.

Lemma _cmd_keys_frozen args now w :
  exists n,
    _cmd_keys args (frozen now) w =
    (inr (keys_reply (live_keys now (self w))),
     {| self := self w; reads := n |}).
Proof.
  unfold _cmd_keys, bind, get_self.
  destruct (keys_loop_frozen (Dict.keys (store (self w))) now [] w) as [n E].
  exists n. rewrite E. reflexivity.
Qed.

Lemma purge_all_cons key rest s :
  purge_all (key :: rest) s = purge_all rest (purge key s).
Proof. reflexivity. Qed.

Lemma del_store_run key clk w :
  Dict.contains key (store (self w)) = true ->
  del_store key clk w =
  (inr tt, {| self := with_store (Dict.remove key (store (self w))) (self w);
              reads := reads w |}).
Proof. intros H. unfold del_store, bind, get_self. now rewrite H. Qed.

Lemma del_loop_run args clk : forall deleted_count w,
  del_loop args deleted_count clk w =
  (inr (deleted_count + present_count args (store (self w)))%Z,
   {| self := purge_all args (self w); reads := reads w |}).
Proof.
  induction args as [|key rest IH]; intros deleted_count w.
  - cbn. unfold ret, present_count. cbn. now rewrite Z.add_0_r, world_eta.
  - cbn [del_loop]. rewrite present_count_cons, purge_all_cons.
    destruct w as [s n].
    unfold bind, get_self, ret. cbn [self reads].
    destruct (Dict.contains key (store s)) eqn:Hs;
      rewrite ?del_store_run by exact Hs;
      rewrite discard_expiry_times_run, IH; cbn [self reads].
    + cbn [store with_expiry_times with_store]. f_equal. f_equal. lia.
    + cbn [store with_expiry_times with_store].
      unfold purge. rewrite (remove_absent _ _ Hs), with_store_same.
      now rewrite Z.add_0_l.
Qed.

Lemma _cmd_del_run key rest clk w :
  _cmd_del (key :: rest) clk w =
  (inr (integer (present_count (key :: rest) (store (self w)))),
   {| self := purge_all (key :: rest) (self w); reads := reads w |}).
Proof. unfold _cmd_del, bind. rewrite del_loop_run. reflexivity. Qed.

Lemma sweep_loop_run expired_keys clk : forall w,
  sweep_loop expired_keys clk w =
  (inr tt, {| self := purge_all expired_keys (self w); reads := reads w |}).
Proof.
  induction expired_keys as [|key rest IH]; intros w.
  - cbn. unfold ret. now rewrite world_eta.
  - cbn [sweep_loop]. unfold bind.
    rewrite discard_store_run, discard_expiry_times_run, IH. reflexivity.
Qed.

(** ** What one command can do to the object *)

Lemma purge_all_counters keys : forall s,
  total_commands (purge_all keys s) = total_commands s /\
  connected_clients (purge_all keys s) = connected_clients s.
Proof.
  induction keys as [|key rest IH]; intros s; [now split|].
  rewrite purge_all_cons. destruct (IH (purge key s)) as [-> ->]. now split.
Qed.

Lemma store_step_counters s s' :
  store_step s s' ->
  total_commands s' = total_commands s /\
  connected_clients s' = connected_clients s.
Proof.
  intros [ | key value | keys | key t H | ]; try (now split).
  apply purge_all_counters.
Qed.

Lemma purge_invariant key s :
  expiry_within_store s -> expiry_within_store (purge key s).
Proof.
  intros Hinv k. unfold purge; cbn.
  destruct (string_dec k key) as [->|Hne].
  - now rewrite contains_remove_same.
  - rewrite !contains_remove_other by assumption. apply Hinv.
Qed.

Lemma purge_all_invariant keys : forall s,
  expiry_within_store s -> expiry_within_store (purge_all keys s).
Proof.
  induction keys as [|key rest IH]; intros s Hinv; [assumption|].
  rewrite purge_all_cons. now apply IH, purge_invariant.
Qed.

Lemma store_step_invariant s s' :
  store_step s s' -> expiry_within_store s -> expiry_within_store s'.
Proof.
  intros [ | key value | keys | key t H | ] Hinv; auto.
  - intros k. unfold assign; cbn. intros Hk.
    apply contains_set_true, Hinv. eapply contains_remove_true, Hk.
  - now apply purge_all_invariant.
  - intros k. cbn. destruct (string_dec k key) as [->|Hne].
    + intros _. assumption.
    + rewrite contains_set_other by assumption. apply Hinv.
  - intros k. cbn. discriminate.
Qed.

(** The two dictionaries hold every key once, and a step keeps it so. *)
Lemma purge_all_NoDup keys : forall s,
  NoDup (Dict.keys (store s)) /\ NoDup (Dict.keys (expiry_times s)) ->
  NoDup (Dict.keys (store (purge_all keys s))) /\
  NoDup (Dict.keys (expiry_times (purge_all keys s))).
Proof.
  induction keys as [|key rest IH]; intros s H; [assumption|].
  rewrite purge_all_cons. apply IH. unfold purge; cbn.
  destruct H. split; now apply NoDup_keys_remove.
Qed.

Lemma store_step_NoDup s s' :
  store_step s s' ->
  NoDup (Dict.keys (store s)) /\ NoDup (Dict.keys (expiry_times s)) ->
  NoDup (Dict.keys (store s')) /\ NoDup (Dict.keys (expiry_times s')).
Proof.
  intros [ | key value | keys | key t H | ] [Hs He]; cbn; auto.
  - split; [now apply NoDup_keys_set | now apply NoDup_keys_remove].
  - now apply purge_all_NoDup.
  - split; [assumption | now apply NoDup_keys_set].
  - split; constructor.
Qed.

(** ** Computations that only read *)

Lemma reads_only_ret {A} (a : A) : reads_only (ret a).
Proof. intros clk w. exists a, (reads w). unfold ret. now rewrite world_eta. Qed.

Lemma reads_only_bind {A B} (m : M A) (f : A -> M B) :
  reads_only m -> (forall a, reads_only (f a)) -> reads_only (bind m f).
Proof.
  intros Hm Hf clk w. destruct (Hm clk w) as (a & n & E).
  destruct (Hf a clk {| self := self w; reads := n |}) as (b & n' & E').
  exists b, n'. unfold bind. now rewrite E, E'.
Qed.

Lemma reads_only_get_self : reads_only get_self.
Proof.
  intros clk w. exists (self w), (reads w). unfold get_self.
  now rewrite world_eta.
Qed.

Lemma reads_only_time_time : reads_only time_time.
Proof. intros clk w. eexists _, _. reflexivity. Qed.

Lemma reads_only_is_expired key : reads_only (_is_expired key).
Proof.
  apply reads_only_bind; [apply reads_only_get_self|]. intros s.
  destruct (Dict.get key (expiry_times s)); [|apply reads_only_ret].
  apply reads_only_bind; [apply reads_only_time_time|].
  intros now. apply reads_only_ret.
Qed.

Lemma reads_only_absent_or_expired key : reads_only (absent_or_expired key).
Proof.
  apply reads_only_bind; [apply reads_only_get_self|]. intros s.
  destruct (negb _); [apply reads_only_ret | apply reads_only_is_expired].
Qed.

Lemma reads_only_time_left key : reads_only (time_left key).
Proof.
  apply reads_only_bind; [apply reads_only_get_self|]. intros s.
  destruct (Dict.get key (expiry_times s)); [|apply reads_only_ret].
  apply reads_only_bind; [apply reads_only_time_time|].
  intros now. apply reads_only_ret.
Qed.

Create HintDb reads.

#[local] Hint Resolve reads_only_ret reads_only_get_self reads_only_time_time
  reads_only_is_expired reads_only_absent_or_expired reads_only_time_left
  : reads.

Ltac reads_only_tac :=
  repeat first
    [ progress eauto with reads
    | apply reads_only_bind; [|intro]
    | match goal with
      | |- reads_only (match ?x with _ => _ end) => destruct x
      end ].

Lemma reads_only_cmd_ttl args : reads_only (_cmd_ttl args).
Proof. unfold _cmd_ttl. reads_only_tac. Qed.

Lemma reads_only_cmd_pttl args : reads_only (_cmd_pttl args).
Proof. unfold _cmd_pttl. reads_only_tac. Qed.

Lemma reads_only_cmd_type args : reads_only (_cmd_type args).
Proof. unfold _cmd_type. reads_only_tac. Qed.

Lemma reads_only_cmd_info : reads_only _cmd_info.
Proof. unfold _cmd_info. reads_only_tac. Qed.

Lemma reads_only_exists_loop args : forall count,
  reads_only (exists_loop args count).
Proof.
  induction args as [|key rest IH]; intros count; cbn [exists_loop];
    reads_only_tac.
Qed.

Lemma reads_only_cmd_exists args : reads_only (_cmd_exists args).
Proof.
  unfold _cmd_exists. destruct args; reads_only_tac.
  apply reads_only_exists_loop.
Qed.

Lemma reads_only_keys_loop ks : forall current_keys,
  reads_only (keys_loop ks current_keys).
Proof.
  induction ks as [|key rest IH]; intros current_keys; cbn [keys_loop];
    reads_only_tac.
Qed.

Lemma reads_only_cmd_keys args : reads_only (_cmd_keys args).
Proof. unfold _cmd_keys. reads_only_tac. apply reads_only_keys_loop. Qed.

(** ** Every handler makes one step *)

Lemma reads_only_steps {A} (m : M A) : reads_only m -> steps m.
Proof.
  intros H clk w. destruct (H clk w) as (a & n & E).
  exists (inr a), {| self := self w; reads := n |}.
  split; [assumption|constructor].
Qed.

Lemma steps_cmd_set args : steps (_cmd_set args).
Proof.
  destruct args as [|key [|v vs]]; try (apply reads_only_steps, reads_only_ret).
  intros clk w. rewrite _cmd_set_run. eexists _, _. split; [reflexivity|].
  cbn [self]. apply step_assign.
Qed.


Lemma steps_cmd_get args : steps (_cmd_get args).
Proof.
  destruct args as [|key [|]]; try (apply reads_only_steps, reads_only_ret).
  intros clk [s n]. run. cases; eexists _, _; (split; [reflexivity|]); cbn;
    try constructor.
  - apply (step_purge s [key]).
  - replace (with_expiry_times (Dict.remove key (expiry_times s)) s)
      with (purge_all [key] s); [apply step_purge|].
    cbn. unfold purge.
    rewrite (remove_absent key (store s))
      by (unfold Dict.contains; now rewrite Heqo).
    now rewrite with_store_same.
Qed.

Lemma steps_cmd_del args : steps (_cmd_del args).
Proof.
  destruct args as [|key rest]; try (apply reads_only_steps, reads_only_ret).
  intros clk w. rewrite _cmd_del_run. eexists _, _. split; [reflexivity|].
  cbn [self]. apply step_purge.
Qed.

Lemma steps_cmd_expire args : steps (_cmd_expire args).
Proof.
  destruct args as [|key [|seconds_str [|]]];
    try (apply reads_only_steps, reads_only_ret).
  intros clk [s n]. run.
  destruct (Py.int_of_str seconds_str) as [seconds|];
    [|eexists _, _; split; [reflexivity|constructor]].
  destruct (Py.float_of_int seconds) as [delta|];
    cases; eexists _, _; (split; [reflexivity|]); cbn; try constructor;
    unfold Dict.contains; now rewrite Heqo.
Qed.

Lemma steps_cmd_flushall : steps _cmd_flushall.
Proof.
  intros clk w. eexists _, _. split; [reflexivity|]. cbn. apply step_flush.
Qed.

Theorem steps_dispatch command args : steps (dispatch command args).
Proof.
  unfold dispatch.
  repeat match goal with
         | |- steps (if ?b then _ else _) => destruct b
         end;
    auto using steps_cmd_set, steps_cmd_get, steps_cmd_del, steps_cmd_expire,
      steps_cmd_flushall, reads_only_steps, reads_only_cmd_ttl,
      reads_only_cmd_pttl, reads_only_cmd_type, reads_only_cmd_info,
      reads_only_cmd_exists, reads_only_cmd_keys, reads_only_ret.
Qed.

(** The dispatcher counts the line, then makes one step, and always
    answers: an exception of the handler becomes an error reply. *)
Theorem _process_command_run command_line clk w :
  exists reply w',
    _process_command command_line clk w = (inr reply, w') /\
    store_step
      (with_total_commands (total_commands (self w) + 1) (self w)) (self w').
Proof.
  unfold _process_command, bind, modify.
  destruct (Py.split command_line) as [|name args].
  - eexists _, _. split; [reflexivity|constructor].
  - unfold try_except.
    destruct (steps_dispatch (Py.upper name) args clk
                {| self := with_total_commands (total_commands (self w) + 1) (self w);
                   reads := reads w |}) as ([e|reply] & w' & E & Hstep);
      rewrite E; eexists _, w'; (split; [reflexivity|exact Hstep]).
Qed.

Lemma cleanup_cycle_run clk w :
  exists keys,
    cleanup_cycle clk w =
    (inr tt, {| self := purge_all keys (self w); reads := S (reads w) |}).
Proof.
  unfold cleanup_cycle, bind, time_time, get_self. cbn [self reads].
  eexists. rewrite sweep_loop_run. reflexivity.
Qed.

(** ** Comparing clock values *)

Lemma gt_true a b : Py.gt a b = true <-> (b < a)%Q.
Proof.
  unfold Py.gt. rewrite negb_true_iff, <- not_true_iff_false, Qle_bool_iff.
  split; [apply Qnot_le_lt | apply Qlt_not_le].
Qed.

Lemma gt_false a b : Py.gt a b = false <-> (a <= b)%Q.
Proof. unfold Py.gt. now rewrite negb_false_iff, Qle_bool_iff. Qed.

Lemma bulk_not_null value : bulk value <> null_bulk.
Proof.
  unfold bulk, null_bulk, Py.str, Py.len.
  destruct (String.length value) as [|n]; cbn; [discriminate|].
  unfold NilZero.string_of_uint.
  destruct (Pos.to_uint (Pos.of_succ_nat n)); cbn; discriminate.
Qed.

(** ** Deleting *)

Lemma purge_all_keeps_absent keys k : forall s,
  (Dict.contains k (store (purge_all keys s)) = true ->
   Dict.contains k (store s) = true) /\
  (Dict.contains k (expiry_times (purge_all keys s)) = true ->
   Dict.contains k (expiry_times s) = true).
Proof.
  induction keys as [|key rest IH]; intros s; [now split|].
  rewrite purge_all_cons. destruct (IH (purge key s)) as [H1 H2].
  split; intros H; [apply H1 in H | apply H2 in H];
    eapply contains_remove_true, H.
Qed.

Lemma purge_all_removes keys k : forall s,
  In k keys ->
  Dict.contains k (store (purge_all keys s)) = false /\
  Dict.contains k (expiry_times (purge_all keys s)) = false.
Proof.
  induction keys as [|key rest IH]; intros s Hin; [contradiction|].
  rewrite purge_all_cons.
  destruct (in_dec string_dec k rest) as [Hr|Hr]; [now apply IH|].
  destruct Hin as [->|Hin]; [|contradiction].
  destruct (purge_all_keeps_absent rest k (purge k s)) as [H1 H2].
  split; apply not_true_is_false; intros H; [apply H1 in H | apply H2 in H];
    cbn [purge store expiry_times with_store with_expiry_times] in H;
    rewrite contains_remove_same in H; discriminate.
Qed.

(** C1, as amended.  DEL answers with the number of distinct argument keys
    that are in the value map when it is called, whether or not their
    expiry has passed: a key that is physically present counts 1, live or
    stale, and an absent key counts 0.  Afterwards no argument key is left
    in the value map or in the expiry map. *)
Theorem del_counts_present_keys key rest clk w :
  let args := key :: rest in
  let r := _cmd_del args clk w in
  reply_of r = inr (integer (present_count args (store (self w)))) /\
  server_of r = purge_all args (self w) /\
  Forall (fun k => Dict.contains k (store (server_of r)) = false /\
                   Dict.contains k (expiry_times (server_of r)) = false) args.
Proof.
  intros args r. subst r args. rewrite _cmd_del_run. unfold reply_of, server_of.
  cbn [fst snd self]. repeat split.
  apply Forall_forall. intros k Hk. now apply purge_all_removes.
Qed.

(** C1, as stated, fails: after [SET a 1] and [EXPIRE a 50] at time 0 the
    key is expired at time 100, yet [DEL a] answers 1 where the claim
    wants the number of live argument keys, which is 0. *)
Lemma del_counts_stale_key :
  let w := after [Line "SET a 1"; Line "EXPIRE a 50"] 0 in
  Dict.contains "a" (store (self w)) = true /\
  live_at 100 "a" (self w) = false /\
  live_count 100 ["a"] (self w) = 0%Z /\
  reply_of (_cmd_del ["a"] (frozen 100) w) = inr (integer 1) /\
  integer 1 <> integer (live_count 100 ["a"] (self w)).
Proof. vm_compute. repeat split; discriminate. Qed.

(** ** Reading a key that has an expiry *)

(** C2, as amended.  For a key with a recorded expiry instant, GET at
    [now] purges the key from both maps and answers the null bulk reply
    when [now] is past the instant; when [now] is not past it (the instant
    itself included) GET changes nothing and answers with the stored
    value.  So a value is returned only if [now <= expiry]. *)
Theorem get_honours_expiry key expiry now w :
  Dict.get key (expiry_times (self w)) = Some expiry ->
  let r := _cmd_get [key] (frozen now) w in
  ((expiry < now)%Q ->
     reply_of r = inr null_bulk /\
     server_of r = purge key (self w) /\
     Dict.contains key (store (server_of r)) = false /\
     Dict.contains key (expiry_times (server_of r)) = false) /\
  ((now <= expiry)%Q ->
     server_of r = self w /\
     reply_of r = inr (match Dict.get key (store (self w)) with
                       | Some value => bulk value
                       | None => null_bulk
                       end)) /\
  (forall value, reply_of r = inr (bulk value) -> (now <= expiry)%Q).
Proof.
  intros He r. destruct (_cmd_get_frozen key now w) as [n E].
  subst r. rewrite E. unfold reply_of, server_of, live_at, expired_at.
  cbn [fst snd self]. rewrite He.
  destruct (Py.gt now expiry) eqn:G.
  - apply gt_true in G. rewrite andb_false_r. split; [|split].
    + intros _. unfold purge; cbn [store expiry_times with_store with_expiry_times].
      now rewrite !contains_remove_same.
    + intros Hle. now apply Qlt_not_le in G.
    + intros value Hv. exfalso. apply (bulk_not_null value). congruence.
  - apply gt_false in G. rewrite andb_true_r. split; [|split].
    + intros Hlt. now apply Qlt_not_le in Hlt.
    + intros _. split; [reflexivity|]. unfold Dict.contains.
      now destruct (Dict.get key (store (self w))).
    + intros _ _. assumption.
Qed.

Lemma get_honours_expiry_witness :
  let w := after [Line "SET k v"; Line "EXPIRE k 100"] 0 in
  Dict.get "k" (expiry_times (self w)) = Some (0 + inject_Z 100)%Q /\
  reply_of (_cmd_get ["k"] (frozen 200) w) = inr null_bulk /\
  reply_of (_cmd_get ["k"] (frozen 50) w) = inr (bulk "v").
Proof.
  intros w.
  destruct (get_honours_expiry "k" (0 + inject_Z 100)%Q 200 w eq_refl)
    as (Hpast & _ & _).
  destruct (get_honours_expiry "k" (0 + inject_Z 100)%Q 50 w eq_refl)
    as (_ & Hnot & _).
  split; [reflexivity|]. split.
  - apply Hpast. reflexivity.
  - apply Hnot. discriminate.
Defined.

(** C2, as stated, fails at the expiry instant itself: with the expiry at
    100, which is not strictly in the future at time 100, GET at time 100
    still answers with the value and removes nothing. *)
Lemma get_at_the_expiry_instant :
  let w := after [Line "SET k v"; Line "EXPIRE k 100"] 0 in
  let r := _cmd_get ["k"] (frozen 100) w in
  Qeq_bool (0 + inject_Z 100) 100 = true /\
  expired_at 100 "k" (self w) = false /\
  reply_of r = inr (bulk "v") /\
  reply_of r <> inr null_bulk /\
  Dict.contains "k" (store (server_of r)) = true /\
  Dict.contains "k" (expiry_times (server_of r)) = true.
Proof. vm_compute. repeat split; discriminate. Qed.

(** ** Writing a key *)

Lemma get_after_set key value s clk n :
  _cmd_get [key] clk {| self := assign key value s; reads := n |} =
  (inr (bulk value), {| self := assign key value s; reads := n |}).
Proof.
  unfold assign. run.
  repeat (progress (rewrite ?get_set_same, ?contains_set_same,
                      ?get_remove_same, ?contains_remove_same; cbn)).
  reflexivity.
Qed.

(** C3.  After SET of a key, GET answers with the value just set and TTL
    answers -1, at any clock: the key is in the value map with that value
    and has no entry in the expiry map.  The value is the words after the
    key joined by single blanks: the word itself when there is one, and
    for two words the first, a blank and the second.  So [SET k v] then
    [GET k] returns [v]. *)
Theorem set_then_get_and_ttl key v vs clk w :
  let args := key :: v :: vs in
  let value := Py.join " " (v :: vs) in
  let w1 := snd (_cmd_set args clk w) in
  reply_of (_cmd_set args clk w) = inr (simple "OK") /\
  Dict.get key (store (self w1)) = Some value /\
  Dict.contains key (expiry_times (self w1)) = false /\
  reply_of (_cmd_get [key] clk w1) = inr (bulk value) /\
  reply_of (_cmd_ttl [key] clk w1) = inr (integer (-1)) /\
  reply_of (_cmd_ttl [key] clk (snd (_cmd_get [key] clk w1))) =
    inr (integer (-1)) /\
  Dict.get key (store (server_of (_cmd_set [key; v] clk w))) = Some v /\
  reply_of (_cmd_get [key] clk (snd (_cmd_set [key; v] clk w))) =
    inr (bulk v) /\
  (forall v',
     Dict.get key (store (server_of (_cmd_set [key; v; v'] clk w))) =
       Some (v ++ " " ++ v') /\
     reply_of (_cmd_get [key] clk (snd (_cmd_set [key; v; v'] clk w))) =
       inr (bulk (v ++ " " ++ v'))).
Proof.
  intros args value w1. subst w1 args. rewrite !_cmd_set_run. fold value.
  split; [reflexivity|].
  split; [unfold assign; cbn; apply get_set_same|].
  split; [unfold assign; cbn; apply contains_remove_same|].
  cbn [snd]. rewrite !get_after_set. cbn [snd fst reply_of].
  split; [reflexivity|].
  assert (Httl : reply_of
            (_cmd_ttl [key] clk
               {| self := assign key value (self w); reads := reads w |}) =
            inr (integer (-1))).
  { unfold assign. run.
    repeat (progress (rewrite ?get_set_same, ?contains_set_same,
                        ?get_remove_same, ?contains_remove_same; cbn)).
    reflexivity. }
  split; [exact Httl|]. split; [exact Httl|].
  split; [unfold server_of, assign; cbn; apply get_set_same|].
  split; [reflexivity|].
  intros v'. rewrite _cmd_set_run. unfold server_of. cbn [snd self].
  rewrite get_after_set. split; [|reflexivity].
  unfold assign. cbn. apply get_set_same.
Qed.

Lemma set_then_get_and_ttl_witness :
  let w := after [Line "SET k old"; Line "EXPIRE k 10"] 0 in
  let w1 := snd (_cmd_set ["k"; "hello"; "world"] (frozen 5) w) in
  Dict.get "k" (store (self w1)) = Some "hello world" /\
  reply_of (_cmd_get ["k"] (frozen 5) w1) =
    inr ("$11" ++ Py.CRLF ++ "hello world" ++ Py.CRLF) /\
  reply_of (_cmd_ttl ["k"] (frozen 5) w1) = inr (":-1" ++ Py.CRLF).
Proof.
  intros w w1.
  destruct (set_then_get_and_ttl "k" "hello" ["world"] (frozen 5) w)
    as (_ & Hvalue & _ & Hget & Httl & _).
  split; [exact Hvalue|]. split; [exact Hget | exact Httl].
Defined.

(** ** Expiring a key at once *)

Lemma expired_after_expire key t later s :
  (t < later)%Q ->
  expired_at later key (with_expiry_times (Dict.set key t (expiry_times s)) s)
  = true.
Proof.
  intros H. unfold expired_at. cbn. rewrite get_set_same. now apply gt_true.
Qed.

Lemma absent_not_live now key s :
  Dict.contains key (store s) = false -> live_at now key s = false.
Proof. intros H. unfold live_at. now rewrite H. Qed.

Lemma expired_not_live now key s :
  expired_at now key s = true -> live_at now key s = false.
Proof. intros H. unfold live_at. rewrite H. apply andb_false_r. Qed.

Lemma live_count_one now key s :
  live_count now [key] s = if live_at now key s then 1%Z else 0%Z.
Proof. unfold live_count. cbn. now destruct (live_at now key s). Qed.

(** C4, as amended.  For a live key and [seconds <= 0] within the range
    of a float, EXPIRE answers 1; from then on GET answers the null bulk
    reply and EXISTS answers 0 at every strictly later time and, when
    [seconds] is negative, also at the instant of the EXPIRE call.  Once
    such a GET has purged the key, GET and EXISTS keep answering so at any
    time. *)
Theorem expire_nonpositive_hides_key
        key seconds_str seconds now later later' w w1 w2 :
  Py.int_of_str seconds_str = Some seconds ->
  (- Py.float_limit < seconds <= 0)%Z ->
  live_at now key (self w) = true ->
  self w1 = server_of (_cmd_expire [key; seconds_str] (frozen now) w) ->
  (now < later)%Q \/ ((seconds < 0)%Z /\ (now <= later)%Q) ->
  self w2 = server_of (_cmd_get [key] (frozen later) w1) ->
  reply_of (_cmd_expire [key; seconds_str] (frozen now) w) = inr (integer 1) /\
  reply_of (_cmd_get [key] (frozen later) w1) = inr null_bulk /\
  reply_of (_cmd_exists [key] (frozen later) w1) = inr (integer 0) /\
  reply_of (_cmd_get [key] (frozen later') w2) = inr null_bulk /\
  reply_of (_cmd_exists [key] (frozen later') w2) = inr (integer 0).
Proof.
  intros Hs [Hrange Hneg] Hlive Hw1 Hlater Hw2.
  destruct (_cmd_expire_frozen key seconds_str seconds now w Hs) as [n E];
    [lia|].
  rewrite E, Hlive in *. unfold reply_of, server_of in *.
  cbn [fst snd self] in Hw1.
  assert (Hexp : expired_at later key (self w1) = true).
  { rewrite Hw1. apply expired_after_expire.
    assert (Hq : (inject_Z seconds <= 0)%Q)
      by (change 0%Q with (inject_Z 0); now rewrite <- Zle_Qle).
    destruct Hlater as [Hlt|[Hlt Hle]]; [lra|].
    assert (Hq' : (inject_Z seconds < 0)%Q)
      by (change 0%Q with (inject_Z 0); now rewrite <- Zlt_Qlt).
    lra. }
  destruct (_cmd_get_frozen key later w1) as [n1 E1].
  destruct (_cmd_exists_frozen key [] later w1) as [n2 E2].
  rewrite E1 in Hw2. cbn [fst snd self] in Hw2. rewrite Hexp in Hw2.
  assert (Hgone : forall t, live_at t key (self w2) = false).
  { intros t. apply absent_not_live. rewrite Hw2. unfold purge; cbn.
    apply contains_remove_same. }
  destruct (_cmd_get_frozen key later' w2) as [n3 E3].
  destruct (_cmd_exists_frozen key [] later' w2) as [n4 E4].
  rewrite E1, E2, E3, E4. cbn [fst].
  rewrite !live_count_one, (expired_not_live _ _ _ Hexp), !Hgone.
  repeat split.
Qed.

Lemma expire_nonpositive_hides_key_witness :
  let w := after [Line "SET k v"] 100 in
  let w1 := snd (_cmd_expire ["k"; "-5"] (frozen 100) w) in
  let w2 := snd (_cmd_get ["k"] (frozen 100) w1) in
  reply_of (_cmd_expire ["k"; "-5"] (frozen 100) w) = inr (integer 1) /\
  reply_of (_cmd_get ["k"] (frozen 100) w1) = inr null_bulk /\
  reply_of (_cmd_exists ["k"] (frozen 100) w1) = inr (integer 0) /\
  reply_of (_cmd_get ["k"] (frozen 7) w2) = inr null_bulk /\
  reply_of (_cmd_exists ["k"] (frozen 7) w2) = inr (integer 0).
Proof.
  intros w w1 w2.
  apply (expire_nonpositive_hides_key "k" "-5" (-5) 100 100 7 w w1 w2).
  - reflexivity.
  - split; [reflexivity | discriminate].
  - reflexivity.
  - reflexivity.
  - right. split; [reflexivity | discriminate].
  - reflexivity.
Defined.

(** C4, as stated, fails for [seconds = 0] at the instant of the call:
    after [EXPIRE k 0] at time 100 the expiry is 100, which time 100 does
    not exceed, so GET still answers with the value and EXISTS with 1. *)
Lemma expire_zero_at_the_same_instant :
  let w := after [Line "SET k v"] 100 in
  let w1 := snd (_cmd_expire ["k"; "0"] (frozen 100) w) in
  live_at 100 "k" (self w) = true /\
  Py.int_of_str "0" = Some 0%Z /\
  reply_of (_cmd_expire ["k"; "0"] (frozen 100) w) = inr (integer 1) /\
  reply_of (_cmd_get ["k"] (frozen 100) w1) = inr (bulk "v") /\
  reply_of (_cmd_get ["k"] (frozen 100) w1) <> inr null_bulk /\
  reply_of (_cmd_exists ["k"] (frozen 100) w1) = inr (integer 1) /\
  reply_of (_cmd_exists ["k"] (frozen 100) w1) <> inr (integer 0).
Proof. vm_compute. repeat split; discriminate. Qed.

(** ** Remaining time *)

Lemma int_of_float_nonneg x : (0 <= x)%Q -> Py.int_of_float x = Qfloor x.
Proof.
  destruct x as [n d]. unfold Qle, Py.int_of_float, Qfloor. cbn.
  intros H. apply Z.quot_div_nonneg; lia.
Qed.

Lemma Qfloor_nonneg x : (0 <= x)%Q -> (0 <= Qfloor x)%Z.
Proof. intros H. apply (Qfloor_resp_le 0 x H). Qed.

Lemma live_remaining_nonneg now key expiry s :
  live_at now key s = true ->
  Dict.get key (expiry_times s) = Some expiry ->
  (0 <= expiry - now)%Q.
Proof.
  unfold live_at, expired_at. intros H He. rewrite He in H.
  apply andb_true_iff in H. destruct H as [_ H].
  apply negb_true_iff, gt_false in H. lra.
Qed.

(** Whatever the clock does between the reads of one call, TTL answers
    -2, or -1 for a key without expiry, or a number that is not negative
    for a key with one. *)
Lemma ttl_any_clock key clk w :
  exists n,
    reply_of (_cmd_ttl [key] clk w) = inr (integer n) /\
    (n = (-2)%Z \/
     (n = (-1)%Z /\ Dict.get key (expiry_times (self w)) = None) \/
     ((0 <= n)%Z /\ Dict.get key (expiry_times (self w)) <> None)).
Proof.
  destruct w as [s k]. run. cases; eexists; (split; [reflexivity|]);
    first [ left; reflexivity
          | right; left; split; reflexivity
          | right; right; split; [lia | discriminate] ].
Qed.

(** C5, as amended.  TTL answers -2 for a key that is absent or expired,
    -1 for a live key without expiry, and otherwise the remaining time
    rounded down to whole seconds (truncated, not rounded up), which is
    never negative; and whatever the clock does between the reads, the
    answer is -2, -1 or a non-negative number.  TTL changes nothing.  The
    number of seconds is stated for a remaining time that is a binary64
    value, which the float subtraction computes exactly. *)
Theorem ttl_rounds_down key now w :
  let r := _cmd_ttl [key] (frozen now) w in
  let ttl := ttl_at now key (self w) in
  (exact_remaining now key (self w) = true ->
   reply_of r = inr (integer ttl)) /\
  server_of r = self w /\
  (live_at now key (self w) = false -> ttl = (-2)%Z) /\
  (live_at now key (self w) = true ->
   Dict.get key (expiry_times (self w)) = None -> ttl = (-1)%Z) /\
  (forall expiry,
     live_at now key (self w) = true ->
     Dict.get key (expiry_times (self w)) = Some expiry ->
     ttl = Qfloor (expiry - now) /\ (0 <= ttl)%Z /\
     (inject_Z ttl <= expiry - now)%Q /\
     (expiry - now < inject_Z (ttl + 1))%Q) /\
  (forall clk, exists n,
     reply_of (_cmd_ttl [key] clk w) = inr (integer n) /\
     (n = (-2)%Z \/
      (n = (-1)%Z /\ Dict.get key (expiry_times (self w)) = None) \/
      ((0 <= n)%Z /\ Dict.get key (expiry_times (self w)) <> None))).
Proof.
  intros r ttl. subst r ttl. destruct (_cmd_ttl_frozen key now w) as [n E].
  rewrite E. unfold reply_of, server_of, ttl_at. cbn [fst snd self].
  split; [|split; [reflexivity|split; [|split; [|split]]]].
  - intros _. destruct (live_at now key (self w)) eqn:L; [|reflexivity].
    destruct (Dict.get key (expiry_times (self w))) as [expiry|] eqn:He;
      [|reflexivity].
    pose proof (live_remaining_nonneg _ _ _ _ L He) as Hpos.
    rewrite (int_of_float_nonneg _ Hpos).
    pose proof (Qfloor_nonneg _ Hpos). do 2 f_equal. lia.
  - now intros ->.
  - now intros -> ->.
  - intros expiry L He.
    pose proof (live_remaining_nonneg _ _ _ _ L He) as Hpos.
    rewrite L, He. repeat split.
    + now apply Qfloor_nonneg.
    + apply Qfloor_le.
    + apply Qlt_floor.
  - intros clk. apply ttl_any_clock.
Qed.

Lemma ttl_rounds_down_witness :
  let w := after [Line "SET k v"; Line "EXPIRE k 10"; Line "SET p q"] 100 in
  reply_of (_cmd_ttl ["k"] (frozen (201 # 2)) w) = inr (integer 9) /\
  reply_of (_cmd_ttl ["p"] (frozen (201 # 2)) w) = inr (integer (-1)) /\
  reply_of (_cmd_ttl ["k"] (frozen 111) w) = inr (integer (-2)).
Proof.
  intros w.
  destruct (ttl_rounds_down "k" (201 # 2) w) as (Hk & _ & _ & _ & Hsome & _).
  destruct (ttl_rounds_down "p" (201 # 2) w) as (Hp & _ & _ & Hnone & _).
  destruct (ttl_rounds_down "k" 111 w) as (Hx & _ & Hgone & _).
  destruct (Hsome (100 + inject_Z 10)%Q eq_refl eq_refl) as (Hfloor & _).
  specialize (Hk eq_refl). specialize (Hp eq_refl). specialize (Hx eq_refl).
  specialize (Hnone eq_refl eq_refl). specialize (Hgone eq_refl).
  cbv zeta in Hk, Hp, Hx, Hfloor, Hnone, Hgone.
  rewrite Hfloor in Hk. rewrite Hnone in Hp. rewrite Hgone in Hx.
  split; [exact Hk | split; [exact Hp | exact Hx]].
Defined.

(** C5, as stated, fails on the rounding: with 9.5 seconds left TTL
    answers 9, where rounding up gives 10. *)
Lemma ttl_truncates_half_seconds :
  let w := after [Line "SET k v"; Line "EXPIRE k 10"] 100 in
  let now := (201 # 2)%Q in
  live_at now "k" (self w) = true /\
  exact_remaining now "k" (self w) = true /\
  Dict.get "k" (expiry_times (self w)) = Some (100 + inject_Z 10)%Q /\
  Qceiling (100 + inject_Z 10 - now) = 10%Z /\
  reply_of (_cmd_ttl ["k"] (frozen now) w) = inr (integer 9) /\
  reply_of (_cmd_ttl ["k"] (frozen now) w) <> inr (integer 10).
Proof. vm_compute. repeat split; discriminate. Qed.

(** PTTL follows TTL, in milliseconds, when they are a binary64 value. *)
Lemma pttl_rounds_down key now w :
  exact_remaining now key (self w) = true ->
  exact_milliseconds now key (self w) = true ->
  reply_of (_cmd_pttl [key] (frozen now) w) =
  inr (integer
         (if live_at now key (self w)
          then match Dict.get key (expiry_times (self w)) with
               | None => -1
               | Some expiry => Qfloor ((expiry - now) * inject_Z 1000)
               end
          else -2)) /\
  server_of (_cmd_pttl [key] (frozen now) w) = self w.
Proof.
  intros _ _. destruct (_cmd_pttl_frozen key now w) as [n E].
  rewrite E. unfold reply_of, server_of. cbn [fst snd self].
  split; [|reflexivity].
  destruct (live_at now key (self w)) eqn:L; [|reflexivity].
  destruct (Dict.get key (expiry_times (self w))) as [expiry|] eqn:He;
    [|reflexivity].
  pose proof (live_remaining_nonneg _ _ _ _ L He) as Hpos.
  assert (Hms : (0 <= (expiry - now) * inject_Z 1000)%Q).
  { apply Qmult_le_0_compat; [assumption | discriminate]. }
  rewrite (int_of_float_nonneg _ Hms).
  pose proof (Qfloor_nonneg _ Hms). do 2 f_equal. lia.
Qed.

(** ** The dispatcher *)

Lemma append_assoc (a b c : string) : ((a ++ b) ++ c = a ++ (b ++ c))%string.
Proof. induction a as [|x a IH]; cbn; [reflexivity | now rewrite IH]. Qed.

Lemma error_unknown command :
  error ("unknown command '" ++ command ++ "'") =
  "-ERR unknown command '" ++ command ++ "'" ++ Py.CRLF.
Proof. unfold error. now rewrite !append_assoc. Qed.

Lemma unrecognized_dispatch command args :
  recognized command = false ->
  dispatch command args = ret (error ("unknown command '" ++ command ++ "'")).
Proof.
  unfold recognized, commands. cbn [existsb]. intros H.
  repeat (apply orb_false_elim in H; destruct H as [? H]).
  unfold dispatch.
  repeat match goal with
         | E : String.eqb command ?c = false |- _ => rewrite E; clear E
         end.
  reflexivity.
Qed.

(** C6.  Processing a command line returns a reply and increments the
    total-commands counter by exactly one, whatever the reply is; a line
    of ASCII text whose command name is not recognized is answered with
    the error "unknown command", the name in upper case, and leaves the
    value map and the expiry map as they were. *)
Theorem every_line_is_counted command_line clk w :
  let r := _process_command command_line clk w in
  (exists reply, reply_of r = inr reply) /\
  total_commands (server_of r) = (total_commands (self w) + 1)%Z /\
  (forall name args,
     Py.isascii command_line = true ->
     Py.split command_line = name :: args ->
     recognized (Py.upper name) = false ->
     reply_of r = inr ("-ERR unknown command '" ++ Py.upper name ++ "'" ++ Py.CRLF) /\
     same_maps (self w) (server_of r)).
Proof.
  intros r. subst r.
  destruct (_process_command_run command_line clk w) as (reply & w' & E & Hstep).
  split; [|split].
  - exists reply. now rewrite E.
  - rewrite E. unfold server_of. cbn [snd].
    now destruct (store_step_counters _ _ Hstep) as [-> _].
  - intros name args _ Hsplit Hun. clear E Hstep.
    unfold _process_command, bind, modify, try_except.
    rewrite Hsplit, (unrecognized_dispatch _ args Hun).
    rewrite error_unknown.
    unfold ret, reply_of, server_of, same_maps. cbn. now repeat split.
Qed.

Lemma every_line_is_counted_witness :
  let r := _process_command "foo" (frozen 0) world0 in
  reply_of r = inr ("-ERR unknown command 'FOO'" ++ Py.CRLF) /\
  same_maps (self world0) (server_of r).
Proof.
  intros r.
  destruct (every_line_is_counted "foo" (frozen 0) world0) as (_ & _ & H).
  apply (H "foo" []); reflexivity.
Defined.

(** The handlers that test [len(args)] answer a wrong count with the
    arity error and touch nothing. *)
Lemma arity_error_dispatch command args :
  checks_arity command = true ->
  declared_arity command (List.length args) = false ->
  dispatch command args = ret (wrong_arity (Py.lower command)).
Proof.
  unfold checks_arity. cbn [existsb]. intros H Harity.
  repeat (apply orb_true_iff in H; destruct H as [H|H]);
    try discriminate; apply String.eqb_eq in H; subst command;
    cbn in Harity |- *.
  - destruct args as [|a [|b l]]; [reflexivity | reflexivity | discriminate].
  - destruct args as [|a [|b l]]; [reflexivity | discriminate | reflexivity].
  - destruct args; [reflexivity | discriminate].
  - destruct args as [|a [|b [|c l]]];
      [reflexivity | reflexivity | discriminate | reflexivity].
  - destruct args as [|a [|b l]]; [reflexivity | discriminate | reflexivity].
  - destruct args as [|a [|b l]]; [reflexivity | discriminate | reflexivity].
  - destruct args; [reflexivity | discriminate].
  - destruct args as [|a [|b l]]; [reflexivity | discriminate | reflexivity].
Qed.

(** C7, as amended.  For SET, GET, DEL, EXPIRE, TTL, PTTL, EXISTS and
    TYPE, a line of ASCII text whose argument count violates the declared
    arity is answered with the error "wrong number of arguments for '<cmd>'
    command", the name in lower case, and the value map and the expiry map
    are exactly as before.  PING, FLUSHALL and INFO make no test on their
    arguments: they run the same whatever the arguments are. *)
Theorem wrong_arity_leaves_maps :
  (forall command_line name args clk w,
     Py.isascii command_line = true ->
     Py.split command_line = name :: args ->
     checks_arity (Py.upper name) = true ->
     declared_arity (Py.upper name) (List.length args) = false ->
     let r := _process_command command_line clk w in
     reply_of r =
       inr ("-ERR wrong number of arguments for '" ++ Py.lower (Py.upper name)
            ++ "' command" ++ Py.CRLF) /\
     same_maps (self w) (server_of r)) /\
  (forall args,
     dispatch "PING" args = ret (simple "PONG") /\
     dispatch "FLUSHALL" args = _cmd_flushall /\
     dispatch "INFO" args = _cmd_info).
Proof.
  split; [|now repeat split].
  intros command_line name args clk w _ Hsplit Hchecks Harity r. subst r.
  unfold _process_command, bind, modify, try_except.
  rewrite Hsplit, (arity_error_dispatch _ _ Hchecks Harity).
  unfold ret, reply_of, server_of, same_maps, wrong_arity, error. cbn.
  rewrite !append_assoc. now repeat split.
Qed.

Lemma wrong_arity_leaves_maps_witness :
  let w := after [Line "SET a 1"] 0 in
  let r := _process_command "expire a" (frozen 0) w in
  reply_of r =
    inr ("-ERR wrong number of arguments for 'expire' command" ++ Py.CRLF) /\
  same_maps (self w) (server_of r).
Proof.
  intros w r.
  destruct wrong_arity_leaves_maps as [H _].
  apply (H "expire a" "expire" ["a"] (frozen 0) w); reflexivity.
Defined.

(** C7, as stated, fails for the commands declared to take no argument:
    [FLUSHALL x] violates the declared arity, yet it is answered with OK
    and empties the value map. *)
Lemma flushall_ignores_its_arguments :
  let w := after [Line "SET a 1"] 0 in
  let r := _process_command "FLUSHALL x" (frozen 0) w in
  Py.isascii "FLUSHALL x" = true /\
  declared_arity "FLUSHALL" 1 = false /\
  reply_of r = inr (simple "OK") /\
  reply_of r <> inr (wrong_arity "flushall") /\
  Dict.contains "a" (store (self w)) = true /\
  Dict.contains "a" (store (server_of r)) = false /\
  store (server_of r) <> store (self w).
Proof. vm_compute. repeat split; discriminate. Qed.

(** ** Stale keys on the read paths *)

Lemma stale_not_in_live_keys now key s :
  expired_at now key s = true -> ~ In key (live_keys now s).
Proof.
  intros H Hin. unfold live_keys in Hin. apply filter_In in Hin.
  destruct Hin as [_ Hin]. rewrite H in Hin. discriminate.
Qed.

Lemma live_count_stale now key rest s :
  live_at now key s = false ->
  live_count now (key :: rest) s = live_count now rest s.
Proof. intros H. unfold live_count. cbn [filter]. now rewrite H. Qed.

(** C10.  For a key that is in the value map but expired, TTL and PTTL
    answer -2, EXISTS counts it 0, TYPE answers "none" and KEYS leaves it
    out of its listing, and each of them leaves the object untouched;
    GET on the same key removes it from both maps. *)
Theorem stale_key_is_hidden_not_purged key rest args now w :
  Dict.contains key (store (self w)) = true ->
  expired_at now key (self w) = true ->
  (reply_of (_cmd_ttl [key] (frozen now) w) = inr (integer (-2)) /\
   server_of (_cmd_ttl [key] (frozen now) w) = self w) /\
  (reply_of (_cmd_pttl [key] (frozen now) w) = inr (integer (-2)) /\
   server_of (_cmd_pttl [key] (frozen now) w) = self w) /\
  (reply_of (_cmd_exists [key] (frozen now) w) = inr (integer 0) /\
   reply_of (_cmd_exists (key :: rest) (frozen now) w) =
     inr (integer (live_count now rest (self w))) /\
   server_of (_cmd_exists (key :: rest) (frozen now) w) = self w) /\
  (reply_of (_cmd_type [key] (frozen now) w) = inr (simple "none") /\
   server_of (_cmd_type [key] (frozen now) w) = self w) /\
  (reply_of (_cmd_keys args (frozen now) w) =
     inr (keys_reply (live_keys now (self w))) /\
   ~ In key (live_keys now (self w)) /\
   server_of (_cmd_keys args (frozen now) w) = self w) /\
  (reply_of (_cmd_get [key] (frozen now) w) = inr null_bulk /\
   Dict.contains key (store (server_of (_cmd_get [key] (frozen now) w))) = false /\
   Dict.contains key (expiry_times (server_of (_cmd_get [key] (frozen now) w)))
     = false).
Proof.
  intros Hin Hexp. pose proof (expired_not_live _ _ _ Hexp) as Hdead.
  destruct (_cmd_ttl_frozen key now w) as [n1 E1].
  destruct (_cmd_pttl_frozen key now w) as [n2 E2].
  destruct (_cmd_exists_frozen key [] now w) as [n3 E3].
  destruct (_cmd_exists_frozen key rest now w) as [n4 E4].
  destruct (_cmd_type_frozen key now w) as [n5 E5].
  destruct (_cmd_keys_frozen args now w) as [n6 E6].
  destruct (_cmd_get_frozen key now w) as [n7 E7].
  rewrite E1, E2, E3, E4, E5, E6, E7. unfold reply_of, server_of.
  cbn [fst snd self].
  rewrite !(live_count_stale _ _ _ _ Hdead), Hdead, Hexp.
  unfold purge; cbn [store expiry_times with_store with_expiry_times].
  rewrite !contains_remove_same.
  repeat split. now apply stale_not_in_live_keys.
Qed.

Lemma stale_key_is_hidden_not_purged_witness :
  let w := after [Line "SET a 1"; Line "EXPIRE a 50"; Line "SET b 2"] 0 in
  reply_of (_cmd_ttl ["a"] (frozen 100) w) = inr (integer (-2)) /\
  reply_of (_cmd_exists ["a"; "b"] (frozen 100) w) = inr (integer 1) /\
  reply_of (_cmd_keys ["*"] (frozen 100) w) = inr (keys_reply ["b"]) /\
  server_of (_cmd_keys ["*"] (frozen 100) w) = self w /\
  Dict.contains "a" (store (server_of (_cmd_get ["a"] (frozen 100) w))) = false.
Proof.
  intros w.
  destruct (stale_key_is_hidden_not_purged "a" ["b"] ["*"] 100 w eq_refl eq_refl)
    as ((Httl & _) & _ & (_ & Hex & _) & _ & (Hkeys & _ & Hsame) & (_ & Hget & _)).
  repeat split; assumption.
Defined.

(** ** The invariant of the two maps *)

Lemma preserves_ret {A} (a : A) : preserves (ret a).
Proof. intros clk w H. now exists a, w. Qed.

Lemma preserves_bind {A B} (m : M A) (f : A -> M B) :
  preserves m -> (forall a, preserves (f a)) -> preserves (bind m f).
Proof.
  intros Hm Hf clk w H. destruct (Hm clk w H) as (a & w1 & E & H1).
  destruct (Hf a clk w1 H1) as (b & w2 & E' & H2).
  exists b, w2. unfold bind. now rewrite E, E'.
Qed.


Lemma preserves_counter (f : RedisServer -> RedisServer) :
  (forall s, store (f s) = store s /\ expiry_times (f s) = expiry_times s) ->
  preserves (modify f).
Proof.
  intros Hf clk w H. eexists tt, _. split; [reflexivity|]. cbn.
  intros key. destruct (Hf (self w)) as [-> ->]. apply H.
Qed.

Lemma preserves_process_command command_line :
  preserves (_process_command command_line).
Proof.
  intros clk w H.
  destruct (_process_command_run command_line clk w) as (reply & w' & E & Hstep).
  exists reply, w'. split; [assumption|].
  eapply store_step_invariant; [eassumption|]. exact H.
Qed.

Lemma preserves_cleanup_cycle : preserves cleanup_cycle.
Proof.
  intros clk w H. destruct (cleanup_cycle_run clk w) as [keys E].
  eexists tt, _. split; [eassumption|]. cbn. now apply purge_all_invariant.
Qed.

Lemma preserves_drain fuel : forall buffer sent,
  preserves (drain fuel buffer sent).
Proof.
  induction fuel as [|fuel IH]; intros buffer sent; cbn [drain];
    [apply preserves_ret|].
  destruct (Py.split_first_lf buffer) as [[line buffer']|];
    [|apply preserves_ret].
  destruct (String.eqb (Py.strip line) ""); [apply IH|].
  apply preserves_bind; [apply preserves_process_command|].
  intros response. apply IH.
Qed.

Lemma preserves_recv_loop chunks : forall buffer sent,
  preserves (recv_loop chunks buffer sent).
Proof.
  induction chunks as [|data later IH]; intros buffer sent; cbn [recv_loop];
    [apply preserves_ret|].
  destruct (String.eqb data ""); [apply preserves_ret|].
  apply preserves_bind; [apply preserves_drain|]. intros bs. apply IH.
Qed.

Lemma preserves_handle_client chunks : preserves (_handle_client chunks).
Proof.
  unfold _handle_client. apply preserves_bind.
  - apply preserves_counter. now intros s.
  - intros _ clk w H. unfold try_finally.
    destruct (preserves_recv_loop chunks "" [banner] clk w H)
      as (sent & w1 & E & H1).
    rewrite E. eexists sent, _. split; [reflexivity|]. exact H1.
Qed.

Lemma preserves_run_event e : preserves (run_event e).
Proof.
  destruct e as [command_line|chunks|]; cbn [run_event].
  - apply preserves_bind; [apply preserves_process_command|].
    intros _. apply preserves_ret.
  - apply preserves_bind; [apply preserves_handle_client|].
    intros _. apply preserves_ret.
  - apply preserves_cleanup_cycle.
Qed.

Lemma preserves_run_events events : preserves (run_events events).
Proof.
  induction events as [|e rest IH]; cbn [run_events]; [apply preserves_ret|].
  apply preserves_bind; [apply preserves_run_event | intros _; apply IH].
Qed.

(** C9.  Every key of the expiry map is a key of the value map: this
    holds of the fresh server; every handler, called with any arguments at
    any clock, ends with it when it starts with it, whether it returns or
    raises; a command line, a client session or a sweeper pass that starts
    with it returns and ends with it; so it holds after any sequence of
    them from the fresh server. *)
Theorem expiry_keys_are_store_keys :
  expiry_within_store init /\
  (forall command args clk w,
     expiry_within_store (self w) ->
     expiry_within_store (server_of (dispatch command args clk w))) /\
  (forall e clk w,
     expiry_within_store (self w) ->
     exists w', run_event e clk w = (inr tt, w') /\
                expiry_within_store (self w')) /\
  (forall events clk n,
     exists w',
       run_events events clk {| self := init; reads := n |} = (inr tt, w') /\
       expiry_within_store (self w')).
Proof.
  assert (Hinit : expiry_within_store init) by (intros key; discriminate).
  split; [exact Hinit|]. split; [|split].
  - intros command args clk w H.
    destruct (steps_dispatch command args clk w) as (r & w' & E & Hstep).
    rewrite E. unfold server_of. cbn [snd].
    eapply store_step_invariant; eassumption.
  - intros e clk w H.
    destruct (preserves_run_event e clk w H) as ([] & w' & E & H').
    now exists w'.
  - intros events clk n.
    destruct (preserves_run_events events clk {| self := init; reads := n |}
                Hinit) as ([] & w' & E & H).
    now exists w'.
Qed.

Lemma expiry_keys_are_store_keys_witness :
  let w := after [Line "SET a 1"; Line "EXPIRE a 50"; Line "SET b 2"] 0 in
  exists w', run_event Sweep (frozen 100) w = (inr tt, w') /\
             expiry_within_store (self w').
Proof.
  intros w.
  destruct expiry_keys_are_store_keys as (_ & _ & Hstep & Hreach).
  apply Hstep.
  destruct (Hreach [Line "SET a 1"; Line "EXPIRE a 50"; Line "SET b 2"]
                   (frozen 0) 0%nat) as (w' & E & H).
  subst w. unfold after, world0. rewrite E. exact H.
Defined.

(** ** Trimming and tokenizing *)

Lemma split_nil s : Py.split s = [] <-> all_space s = true.
Proof.
  induction s as [|c s IH]; cbn [Py.split all_space]; [tauto|].
  destruct (Py.is_space c); cbn [andb]; [exact IH|].
  split; [|discriminate].
  destruct s as [|c' s']; [discriminate|].
  destruct (Py.is_space c'); [discriminate|].
  destruct (Py.split (String c' s')); discriminate.
Qed.

Lemma rstrip_all_space s : all_space (Py.rstrip s) = true -> Py.rstrip s = "".
Proof.
  induction s as [|c s IH]; cbn [Py.rstrip]; [reflexivity|].
  destruct (Py.rstrip s) as [|c' r] eqn:E.
  - destruct (Py.is_space c) eqn:Ec; [reflexivity|].
    cbn [all_space]. rewrite Ec. discriminate.
  - cbn [all_space] in *. intros H.
    apply andb_true_iff in H. destruct H as [_ H]. apply IH in H. discriminate.
Qed.

(** A line that is not empty after trimming has a command name: the
    session never gets the reply "empty command". *)
Lemma trimmed_line_has_name line :
  Py.strip line <> "" ->
  exists name args, Py.split (Py.strip line) = name :: args.
Proof.
  intros Hne. destruct (Py.split (Py.strip line)) as [|name args] eqn:E.
  - apply split_nil, rstrip_all_space in E. contradiction.
  - now exists name, args.
Qed.

(** ** Pipelined input *)

Lemma split_first_lf_line line rest :
  Py.split_first_lf line = None ->
  Py.split_first_lf (line ++ Py.LF ++ rest) = Some (line, rest).
Proof.
  induction line as [|c line IH]; cbn [Py.split_first_lf append];
    [reflexivity|].
  destruct (Ascii.eqb c (ascii_of_nat 10)); [discriminate|].
  destruct (Py.split_first_lf line) as [[? ?]|]; [discriminate|].
  intros _. now rewrite IH.
Qed.

Lemma length_append (a b : string) :
  String.length (a ++ b) = (String.length a + String.length b)%nat.
Proof. induction a as [|c a IH]; cbn; [reflexivity | now rewrite IH]. Qed.


(** With fuel above the length of the buffer, the loop answers the
    complete lines one after the other and leaves what follows the last
    line feed in the buffer. *)
Lemma drain_pipelined tail lines : forall fuel sent clk w,
  Forall (fun line => Py.split_first_lf line = None) lines ->
  Py.split_first_lf tail = None ->
  (String.length (pipelined lines ++ tail) < fuel)%nat ->
  drain fuel (pipelined lines ++ tail) sent clk w =
  (sent' <- answer_all (command_lines lines) sent ;; ret (tail, sent')) clk w.
Proof.
  induction lines as [|line rest IH]; intros fuel sent clk w Hlf Htail Hfuel.
  - destruct fuel; [inversion Hfuel|]. cbn [drain pipelined append].
    now rewrite Htail.
  - destruct fuel as [|fuel]; [inversion Hfuel|].
    inversion Hlf as [|? ? Hline Hrest]; subst.
    cbn [pipelined] in Hfuel |- *. rewrite !append_assoc in Hfuel |- *.
    rewrite !length_append in Hfuel. cbn [String.length Py.LF] in Hfuel.
    cbn [drain]. rewrite (split_first_lf_line _ _ Hline).
    unfold command_lines. cbn [map filter]. fold (command_lines rest).
    destruct (String.eqb (Py.strip line) "") eqn:Hblank; cbn [negb].
    + apply IH; [assumption | assumption | rewrite length_append; lia].
    + cbn [answer_all]. unfold bind.
      destruct (_process_command (Py.strip line) clk w) as [[e|response] w'];
        [reflexivity|].
      rewrite IH by (assumption || (rewrite length_append; lia)). reflexivity.
Qed.

Lemma answer_all_run command_lines : forall sent clk w,
  exists replies w',
    answer_all command_lines sent clk w = (inr (sent ++ replies)%list, w') /\
    List.length replies = List.length command_lines /\
    total_commands (self w') =
      (total_commands (self w) + Z.of_nat (List.length command_lines))%Z.
Proof.
  induction command_lines as [|command_line rest IH]; intros sent clk w.
  - exists [], w. cbn. unfold ret. rewrite app_nil_r, Z.add_0_r. auto.
  - cbn [answer_all]. unfold bind.
    destruct (_process_command_run command_line clk w)
      as (response & w1 & E & Hstep).
    rewrite E. destruct (IH (sent ++ [response])%list clk w1)
      as (replies & w2 & E' & Hlen & Hcount).
    exists (response :: replies), w2. rewrite E', <- app_assoc.
    split; [reflexivity|]. split; [cbn; now rewrite Hlen|].
    rewrite Hcount. destruct (store_step_counters _ _ Hstep) as [-> _].
    cbn [total_commands with_total_commands List.length].
    rewrite Nat2Z.inj_succ. lia.
Qed.

Lemma split_first_lf_shorter buffer line rest :
  Py.split_first_lf buffer = Some (line, rest) ->
  (String.length rest < String.length buffer)%nat.
Proof.
  revert line. induction buffer as [|c buffer IH]; intros line;
    cbn [Py.split_first_lf String.length]; [discriminate|].
  destruct (Ascii.eqb c (ascii_of_nat 10)).
  - intros H. injection H as _ <-. lia.
  - destruct (Py.split_first_lf buffer) as [[l r]|]; [|discriminate].
    intros H. injection H as _ <-. specialize (IH l eq_refl). lia.
Qed.

(** The fuel given by [on_data] is enough for any buffer: the loop ends
    because no line feed is left. *)
Lemma drain_complete fuel : forall buffer sent clk w,
  (String.length buffer < fuel)%nat ->
  exists buffer' sent' w',
    drain fuel buffer sent clk w = (inr (buffer', sent'), w') /\
    Py.split_first_lf buffer' = None.
Proof.
  induction fuel as [|fuel IH]; intros buffer sent clk w Hfuel;
    [inversion Hfuel|].
  cbn [drain].
  destruct (Py.split_first_lf buffer) as [[line rest]|] eqn:Hsplit.
  - apply split_first_lf_shorter in Hsplit.
    destruct (String.eqb (Py.strip line) ""); [apply IH; lia|].
    unfold bind.
    destruct (_process_command_run (Py.strip line) clk w)
      as (response & w1 & E & _).
    rewrite E. apply IH. lia.
  - now exists buffer, sent, w.
Qed.

Lemma process_set_a_1 clk w :
  _process_command "SET a 1" clk w =
  (inr (simple "OK"),
   {| self := assign "a" "1"
                (with_total_commands (total_commands (self w) + 1) (self w));
      reads := reads w |}).
Proof.
  unfold _process_command, bind, modify, try_except.
  change (Py.split "SET a 1") with ["SET"; "a"; "1"].
  cbv iota beta. change (Py.upper "SET") with "SET".
  change (dispatch "SET" ["a"; "1"]) with (_cmd_set ["a"; "1"]).
  now rewrite _cmd_set_run.
Qed.

Lemma process_get_a clk w value :
  Dict.get "a" (store (self w)) = Some value ->
  Dict.get "a" (expiry_times (self w)) = None ->
  reply_of (_process_command "GET a" clk w) = inr (bulk value).
Proof.
  intros Hs He. unfold _process_command, bind, modify, try_except.
  change (Py.split "GET a") with ["GET"; "a"].
  cbv iota beta. change (Py.upper "GET") with "GET".
  change (dispatch "GET" ["a"]) with (_cmd_get ["a"]).
  run. unfold Dict.contains.
  repeat (progress (rewrite ?Hs, ?He; cbn)). reflexivity.
Qed.

(** One turn of the receive loop, whatever was left in the buffer: the
    complete lines of the buffer and the data taken together are answered
    in order, and the text after the last line feed stays in the buffer
    for the next read. *)
Lemma on_data_lines lines tail buffer data sent clk w :
  Forall (fun line => Py.split_first_lf line = None) lines ->
  Py.split_first_lf tail = None ->
  buffer ++ data = pipelined lines ++ tail ->
  on_data buffer data sent clk w =
  (sent' <- answer_all (command_lines lines) sent ;; ret (tail, sent')) clk w.
Proof.
  intros Hlf Htail Hbuf. unfold on_data. rewrite Hbuf.
  apply drain_pipelined; [assumption | assumption | lia].
Qed.

Lemma append_empty_r (s : string) : s ++ "" = s.
Proof. induction s as [|c s IH]; cbn; [reflexivity | now rewrite IH]. Qed.

(** C8.  When one read delivers several lines of ASCII text, each ended
    by a line feed, the session answers the lines that are not empty
    after trimming, one reply each, in the order of the lines, as if they
    had been processed one after the other; empty lines get no reply and
    are not counted; the buffer is left empty.  The input
    "SET a 1\nGET a\n" is answered with "+OK\r\n" then "$1\r\n1\r\n". *)
Theorem pipelined_lines_answered_in_order :
  (forall lines clk w,
     Py.isascii (pipelined lines) = true ->
     Forall (fun line => Py.split_first_lf line = None) lines ->
     let r := on_data "" (pipelined lines) [] clk w in
     r = (sent <- answer_all (command_lines lines) [] ;; ret ("", sent)) clk w /\
     exists replies,
       reply_of r = inr ("", replies) /\
       List.length replies = List.length (command_lines lines) /\
       total_commands (server_of r) =
         (total_commands (self w)
          + Z.of_nat (List.length (command_lines lines)))%Z) /\
  (forall clk w,
     let data := "SET a 1" ++ Py.LF ++ "GET a" ++ Py.LF in
     let replies := ["+OK" ++ Py.CRLF; "$1" ++ Py.CRLF ++ "1" ++ Py.CRLF] in
     reply_of (on_data "" data [] clk w) = inr ("", replies) /\
     reply_of (_handle_client [data] clk w) = inr (banner :: replies)).
Proof.
  assert (Hrefine : forall lines sent clk w,
    Forall (fun line => Py.split_first_lf line = None) lines ->
    on_data "" (pipelined lines) sent clk w =
    (sent' <- answer_all (command_lines lines) sent ;; ret ("", sent')) clk w).
  { intros lines sent clk w Hlf.
    apply on_data_lines; [assumption | reflexivity|].
    now rewrite append_empty_r. }
  assert (Hexample : forall sent clk w,
    let data := "SET a 1" ++ Py.LF ++ "GET a" ++ Py.LF in
    exists w',
      on_data "" data sent clk w =
      (inr ("", sent ++ [simple "OK"; bulk "1"])%list, w')).
  { intros sent clk w data. subst data.
    change ("SET a 1" ++ Py.LF ++ "GET a" ++ Py.LF)
      with (pipelined ["SET a 1"; "GET a"]).
    rewrite Hrefine by (repeat constructor).
    change (command_lines ["SET a 1"; "GET a"]) with ["SET a 1"; "GET a"].
    cbn [answer_all]. unfold bind at 1 2. rewrite process_set_a_1.
    unfold bind at 1.
    match goal with
    | |- context [_process_command "GET a" clk ?w1] =>
        pose proof (process_get_a clk w1 "1") as Hget;
        destruct (_process_command "GET a" clk w1) as [r w2]
    end.
    unfold reply_of in Hget. cbn [fst] in Hget. rewrite Hget.
    - exists w2. unfold ret. now rewrite <- app_assoc.
    - cbn. apply get_set_same.
    - cbn. apply get_remove_same. }
  split.
  - intros lines clk w _ Hlf r. subst r. rewrite (Hrefine _ _ _ _ Hlf).
    split; [reflexivity|]. unfold bind.
    destruct (answer_all_run (command_lines lines) [] clk w)
      as (replies & w' & E & Hlen & Hcount).
    rewrite E. exists replies. unfold reply_of, server_of, ret. cbn.
    now repeat split.
  - intros clk w data replies. split.
    + destruct (Hexample [] clk w) as [w' E]. fold data in E. now rewrite E.
    + unfold _handle_client, bind, modify, try_finally. cbn [recv_loop].
      change (String.eqb data "") with false. cbv iota. unfold bind.
      match goal with
      | |- context [on_data "" data [banner] clk ?w1] =>
          destruct (Hexample [banner] clk w1) as [w' E]
      end.
      fold data in E. rewrite E. reflexivity.
Qed.

Lemma pipelined_lines_answered_in_order_witness :
  let lines := ["PING"; "   "; "ECHO hi"; ""] in
  let r := on_data "" (pipelined lines) [] (frozen 0) world0 in
  exists replies,
    reply_of r = inr ("", replies) /\
    List.length replies = 2%nat /\
    total_commands (server_of r) = 2%Z.
Proof.
  intros lines r.
  destruct pipelined_lines_answered_in_order as [H _].
  destruct (H lines (frozen 0) world0) as [_ Hreplies].
  - reflexivity.
  - repeat constructor.
  - exact Hreplies.
Defined.

(** ** The scenarios of the specification, run on a fresh server *)

Example scenario_foo :
  reply_of
    (_handle_client
       [pipelined ["SET foo bar"; "GET foo"; "DEL foo"; "GET foo";
                   "EXISTS foo"; "TYPE foo"; "EXPIRE missingkey 10"]]
       (frozen 0) world0) =
  inr [banner;
       "+OK" ++ Py.CRLF;
       "$3" ++ Py.CRLF ++ "bar" ++ Py.CRLF;
       ":1" ++ Py.CRLF;
       "$-1" ++ Py.CRLF;
       ":0" ++ Py.CRLF;
       "+none" ++ Py.CRLF;
       ":0" ++ Py.CRLF].
Proof. vm_compute. reflexivity. Qed.

Example scenario_partial_lines :
  reply_of
    (_handle_client ["SET a"; " 1" ++ Py.LF ++ "GE"; "T a" ++ Py.LF ++ "PING"]
       (frozen 0) world0) =
  inr [banner; "+OK" ++ Py.CRLF; "$1" ++ Py.CRLF ++ "1" ++ Py.CRLF].
Proof. vm_compute. reflexivity. Qed.

Example scenario_delete_twice :
  reply_of
    (_handle_client [pipelined ["SET k v"; "DEL k"; "DEL k"; "FLUSHALL"; "KEYS *"]]
       (frozen 0) world0) =
  inr [banner; "+OK" ++ Py.CRLF; ":1" ++ Py.CRLF; ":0" ++ Py.CRLF;
       "+OK" ++ Py.CRLF; "*0" ++ Py.CRLF].
Proof. vm_compute. reflexivity. Qed.

(** An integer beyond the range of a float makes EXPIRE raise; the
    dispatcher answers with the message of the exception and the line is
    counted all the same. *)
Example scenario_expire_overflow :
  let w := after [Line "SET k v"] 0 in
  let r := _process_command ("EXPIRE k -" ++ Py.str (2 ^ 1024)) (frozen 0) w in
  reply_of r = inr ("-ERR int too large to convert to float" ++ Py.CRLF) /\
  total_commands (server_of r) = 2%Z /\
  expiry_times (server_of r) = [].
Proof. vm_compute. repeat split. Qed.

(** ** The sweeper, exactly *)

Lemma get_purge_all keys k : forall s,
  Dict.get k (store (purge_all keys s)) =
    (if named k keys then None else Dict.get k (store s)) /\
  Dict.get k (expiry_times (purge_all keys s)) =
    (if named k keys then None else Dict.get k (expiry_times s)).
Proof.
  induction keys as [|key rest IH]; intros s; [now split|].
  rewrite purge_all_cons. destruct (IH (purge key s)) as [-> ->].
  unfold named. cbn [existsb purge store expiry_times with_store with_expiry_times].
  destruct (String.eqb k key) eqn:E; cbn [orb].
  - apply String.eqb_eq in E. subst key.
    rewrite !get_remove_same. now destruct (existsb (String.eqb k) rest).
  - apply String.eqb_neq in E. now rewrite !get_remove_other.
Qed.

Lemma named_expired_keys now k s :
  NoDup (Dict.keys (expiry_times s)) ->
  named k (expired_keys now s) = expired_at now k s.
Proof.
  unfold expired_keys, expired_at, named, Dict.items.
  induction (expiry_times s) as [|[k' t'] d IH]; intros Hnd; [reflexivity|].
  inversion Hnd as [|? ? Hnin Hd]; subst. specialize (IH Hd).
  cbn [filter snd Dict.get].
  destruct (String.eqb k k') eqn:E.
  - apply String.eqb_eq in E. subst k'.
    assert (Hnone : Dict.get k d = None).
    { destruct (Dict.get k d) eqn:G; [|reflexivity]. exfalso. apply Hnin.
      apply contains_In. unfold Dict.contains. now rewrite G. }
    rewrite Hnone in IH.
    destruct (Py.gt now t'); cbn [map fst existsb]; [|exact IH].
    now rewrite String.eqb_refl.
  - destruct (Py.gt now t'); cbn [map fst existsb]; [|exact IH].
    rewrite E. exact IH.
Qed.

Lemma cleanup_cycle_exact clk w :
  cleanup_cycle clk w =
  (inr tt,
   {| self := purge_all (expired_keys (clk (reads w)) (self w)) (self w);
      reads := S (reads w) |}).
Proof.
  unfold cleanup_cycle, bind, time_time, get_self. cbn [self reads].
  now rewrite sweep_loop_run.
Qed.

(** X1.  One pass of the sweeper, reading the clock once, removes from
    both maps exactly the keys whose expiry instant the clock value
    exceeds; every other key keeps its value and its expiry; afterwards no
    key is expired at that clock value, and the counters are as before. *)
Theorem sweep_removes_exactly_the_expired clk w :
  NoDup (Dict.keys (expiry_times (self w))) ->
  let now := clk (reads w) in
  let r := cleanup_cycle clk w in
  reply_of r = inr tt /\
  (forall key,
     Dict.get key (store (server_of r)) =
       (if expired_at now key (self w) then None
        else Dict.get key (store (self w))) /\
     Dict.get key (expiry_times (server_of r)) =
       (if expired_at now key (self w) then None
        else Dict.get key (expiry_times (self w))) /\
     expired_at now key (server_of r) = false) /\
  connected_clients (server_of r) = connected_clients (self w) /\
  total_commands (server_of r) = total_commands (self w).
Proof.
  intros Hnd now r. subst r. rewrite cleanup_cycle_exact.
  unfold reply_of, server_of. cbn [fst snd self]. fold now.
  split; [reflexivity|]. split.
  - intros key.
    destruct (get_purge_all (expired_keys now (self w)) key (self w)) as [Hs He].
    rewrite (named_expired_keys now key (self w) Hnd) in Hs, He.
    split; [exact Hs|]. split; [exact He|].
    unfold expired_at at 1. rewrite He.
    destruct (expired_at now key (self w)) eqn:X; [reflexivity|exact X].
  - destruct (purge_all_counters (expired_keys now (self w)) (self w))
      as [-> ->]. now split.
Qed.

Lemma sweep_removes_exactly_the_expired_witness :
  let w := after [Line "SET a 1"; Line "EXPIRE a 50"; Line "SET b 2";
                  Line "EXPIRE b 500"; Line "SET c 3"] 0 in
  let r := cleanup_cycle (frozen 100) w in
  Dict.get "a" (store (server_of r)) = None /\
  Dict.get "b" (store (server_of r)) = Some "2" /\
  Dict.get "c" (store (server_of r)) = Some "3".
Proof.
  intros w r.
  assert (Hnd : NoDup (Dict.keys (expiry_times (self w)))).
  { repeat constructor; cbn; intuition discriminate. }
  destruct (sweep_removes_exactly_the_expired (frozen 100) w Hnd)
    as (_ & Hkeys & _).
  destruct (Hkeys "a") as (Ha & _). destruct (Hkeys "b") as (Hb & _).
  destruct (Hkeys "c") as (Hc & _).
  split; [exact Ha | split; [exact Hb | exact Hc]].
Defined.

(** ** The sweeper and the readers *)

Lemma gt_later now later t :
  (now <= later)%Q -> Py.gt now t = true -> Py.gt later t = true.
Proof. rewrite !gt_true. intros H1 H2. lra. Qed.

Lemma expired_later now later key s :
  (now <= later)%Q -> expired_at now key s = true -> expired_at later key s = true.
Proof.
  unfold expired_at. destruct (Dict.get key (expiry_times s)); [|discriminate].
  apply gt_later.
Qed.

Lemma keys_remove {V} key (d : Dict.dict V) :
  Dict.keys (Dict.remove key d) =
  filter (fun k => negb (String.eqb key k)) (Dict.keys d).
Proof.
  induction d as [|[k v] d IH]; [reflexivity|].
  cbn [Dict.remove Dict.keys map fst filter].
  destruct (String.eqb key k); cbn [negb]; [exact IH|].
  cbn [map fst]. now f_equal.
Qed.

Lemma filter_twice {A} (f g h : A -> bool) (l : list A) :
  (forall x, In x l -> g x && f x = h x) ->
  filter f (filter g l) = filter h l.
Proof.
  induction l as [|x l IH]; intros H; [reflexivity|].
  cbn [filter]. rewrite <- (H x (or_introl eq_refl)).
  assert (IH' := IH (fun y Hy => H y (or_intror Hy))).
  destruct (g x); cbn [andb filter]; [destruct (f x)|]; now rewrite IH'.
Qed.

Lemma keys_purge_all keys : forall s,
  Dict.keys (store (purge_all keys s)) =
  filter (fun k => negb (named k keys)) (Dict.keys (store s)).
Proof.
  induction keys as [|key rest IH]; intros s.
  - cbn [purge_all fold_left]. symmetry. apply forallb_filter_id.
    now apply forallb_forall.
  - rewrite purge_all_cons, IH. unfold purge.
    cbn [store with_store with_expiry_times]. rewrite keys_remove.
    apply filter_twice. intros k _. unfold named. cbn [existsb].
    rewrite (String.eqb_sym k key). now rewrite negb_orb.
Qed.

(** What the sweeper leaves, seen at a later clock value: every key is as
    live as it was. *)
Lemma swept_live now later key s :
  NoDup (Dict.keys (expiry_times s)) ->
  (now <= later)%Q ->
  let s' := purge_all (expired_keys now s) s in
  expired_at later key s' = expired_at later key s && negb (expired_at now key s) /\
  live_at later key s' = live_at later key s /\
  (live_at later key s = true ->
   Dict.get key (store s') = Dict.get key (store s) /\
   Dict.get key (expiry_times s') = Dict.get key (expiry_times s)).
Proof.
  intros Hnd Hle s'.
  destruct (get_purge_all (expired_keys now s) key s) as [Hs He].
  rewrite (named_expired_keys now key s Hnd) in Hs, He. fold s' in Hs, He.
  assert (Hexp : expired_at later key s' =
                 expired_at later key s && negb (expired_at now key s)).
  { unfold expired_at at 1. rewrite He.
    destruct (expired_at now key s) eqn:X; [now rewrite andb_false_r|].
    now rewrite andb_true_r. }
  split; [exact Hexp|].
  pose proof (expired_later now later key s Hle) as Hmono.
  split.
  - unfold live_at, Dict.contains. rewrite Hexp, Hs.
    destruct (expired_at now key s) eqn:X.
    + rewrite (Hmono eq_refl). cbn. now rewrite andb_false_r.
    + now rewrite andb_true_r.
  - intros Hlive. destruct (expired_at now key s) eqn:X; [|now split].
    unfold live_at in Hlive. rewrite (Hmono eq_refl) in Hlive.
    now rewrite andb_false_r in Hlive.
Qed.

(** X2.  A pass of the sweeper is invisible to later readers: at any
    clock value not before the one the sweeper read, every key is exactly
    as live as without the pass, and GET, TTL, EXISTS and KEYS answer as
    they would have. *)
Theorem sweep_is_invisible_later clk w w' later :
  NoDup (Dict.keys (expiry_times (self w))) ->
  (clk (reads w) <= later)%Q ->
  self w' = server_of (cleanup_cycle clk w) ->
  (forall key,
     live_at later key (self w') = live_at later key (self w) /\
     reply_of (_cmd_get [key] (frozen later) w') =
       reply_of (_cmd_get [key] (frozen later) w) /\
     reply_of (_cmd_ttl [key] (frozen later) w') =
       reply_of (_cmd_ttl [key] (frozen later) w)) /\
  (forall key rest,
     reply_of (_cmd_exists (key :: rest) (frozen later) w') =
       reply_of (_cmd_exists (key :: rest) (frozen later) w)) /\
  (forall args,
     reply_of (_cmd_keys args (frozen later) w') =
       reply_of (_cmd_keys args (frozen later) w)).
Proof.
  intros Hnd Hle Hw'. rewrite cleanup_cycle_exact in Hw'.
  unfold server_of in Hw'. cbn [snd self] in Hw'.
  set (now := clk (reads w)) in *.
  assert (Hkey := fun key => swept_live now later key (self w) Hnd Hle).
  cbv zeta in Hkey. rewrite <- Hw' in Hkey.
  split; [|split].
  - intros key. destruct (Hkey key) as (_ & Hlive & Hsame).
    split; [exact Hlive|].
    destruct (_cmd_get_frozen key later w') as [n1 E1].
    destruct (_cmd_get_frozen key later w) as [n2 E2].
    destruct (_cmd_ttl_frozen key later w') as [n3 E3].
    destruct (_cmd_ttl_frozen key later w) as [n4 E4].
    rewrite E1, E2, E3, E4. unfold reply_of. cbn [fst]. rewrite Hlive.
    destruct (live_at later key (self w)); [|now split].
    destruct (Hsame eq_refl) as [-> ->]. now split.
  - intros key rest.
    destruct (_cmd_exists_frozen key rest later w') as [n1 E1].
    destruct (_cmd_exists_frozen key rest later w) as [n2 E2].
    rewrite E1, E2. unfold reply_of, live_count. cbn [fst].
    do 4 f_equal. apply filter_ext. intros k. apply (Hkey k).
  - intros args.
    destruct (_cmd_keys_frozen args later w') as [n1 E1].
    destruct (_cmd_keys_frozen args later w) as [n2 E2].
    rewrite E1, E2. unfold reply_of. cbn [fst]. do 2 f_equal.
    unfold live_keys. rewrite Hw', keys_purge_all, <- Hw'.
    apply filter_twice. intros k _.
    destruct (Hkey k) as (Hexp & _). rewrite Hexp.
    rewrite (named_expired_keys now k (self w) Hnd).
    destruct (expired_at now k (self w)) eqn:X; cbn.
    + now rewrite (expired_later now later k (self w) Hle X).
    + now rewrite andb_true_r.
Qed.

Lemma sweep_is_invisible_later_witness :
  let w := after [Line "SET a 1"; Line "EXPIRE a 50"; Line "SET b 2"] 0 in
  let w' := snd (cleanup_cycle (frozen 100) w) in
  reply_of (_cmd_get ["a"] (frozen 120) w') =
    reply_of (_cmd_get ["a"] (frozen 120) w) /\
  reply_of (_cmd_keys [] (frozen 120) w') =
    reply_of (_cmd_keys [] (frozen 120) w).
Proof.
  intros w w'.
  assert (Hnd : NoDup (Dict.keys (expiry_times (self w)))).
  { repeat constructor; cbn; intuition discriminate. }
  destruct (sweep_is_invisible_later (frozen 100) w w' 120 Hnd)
    as (Hkey & _ & Hkeys); [discriminate | reflexivity |].
  destruct (Hkey "a") as (_ & Hget & _).
  split; [exact Hget | exact (Hkeys [])].
Defined.

(** ** Keys without expiry *)

Lemma named_expired_has_expiry now k s :
  named k (expired_keys now s) = true ->
  Dict.contains k (expiry_times s) = true.
Proof.
  unfold expired_keys, named, Dict.items, Dict.contains.
  induction (expiry_times s) as [|[k' t'] d IH]; [discriminate|].
  cbn [filter snd Dict.get].
  destruct (String.eqb k k') eqn:E; [reflexivity|].
  destruct (Py.gt now t'); cbn [map fst existsb]; rewrite ?E; exact IH.
Qed.

(** X3.  A key that has a value and no expiry entry never expires:
    whatever the clock says, GET answers with the value without touching
    the object, TTL answers -1, EXISTS counts it, TYPE answers "string",
    and a pass of the sweeper leaves it as it is. *)
Theorem key_without_expiry_is_permanent key value clk w :
  Dict.get key (store (self w)) = Some value ->
  Dict.get key (expiry_times (self w)) = None ->
  _cmd_get [key] clk w = (inr (bulk value), w) /\
  _cmd_ttl [key] clk w = (inr (integer (-1)), w) /\
  _cmd_exists [key] clk w = (inr (integer 1), w) /\
  _cmd_type [key] clk w = (inr (simple "string"), w) /\
  Dict.get key (store (server_of (cleanup_cycle clk w))) = Some value /\
  Dict.get key (expiry_times (server_of (cleanup_cycle clk w))) = None.
Proof.
  intros Hs He.
  assert (Hget : _cmd_get [key] clk w = (inr (bulk value), w)).
  { destruct w as [s n]. cbn [self] in Hs, He. run. unfold Dict.contains.
    repeat (progress (rewrite ?Hs, ?He; cbn)). reflexivity. }
  assert (Httl : _cmd_ttl [key] clk w = (inr (integer (-1)), w)).
  { destruct w as [s n]. cbn [self] in Hs, He. run. unfold Dict.contains.
    repeat (progress (rewrite ?Hs, ?He; cbn)). reflexivity. }
  assert (Hex : _cmd_exists [key] clk w = (inr (integer 1), w)).
  { destruct w as [s n]. cbn [self] in Hs, He.
    unfold _cmd_exists. cbn [exists_loop]. run. unfold Dict.contains.
    repeat (progress (rewrite ?Hs, ?He; cbn)). reflexivity. }
  assert (Hty : _cmd_type [key] clk w = (inr (simple "string"), w)).
  { destruct w as [s n]. cbn [self] in Hs, He. run. unfold Dict.contains.
    repeat (progress (rewrite ?Hs, ?He; cbn)). reflexivity. }
  repeat (split; [assumption|]).
  rewrite cleanup_cycle_exact. unfold server_of. cbn [snd self].
  destruct (get_purge_all (expired_keys (clk (reads w)) (self w)) key (self w))
    as [-> ->].
  destruct (named key (expired_keys (clk (reads w)) (self w))) eqn:N;
    [|now split].
  apply named_expired_has_expiry in N. unfold Dict.contains in N.
  rewrite He in N. discriminate.
Qed.

Lemma key_without_expiry_is_permanent_witness :
  let w := after [Line "SET a 1"; Line "EXPIRE a 50"; Line "SET b 2"] 0 in
  _cmd_get ["b"] (frozen 1000) w = (inr (bulk "2"), w) /\
  Dict.get "b" (store (server_of (cleanup_cycle (frozen 1000) w))) = Some "2".
Proof.
  intros w.
  destruct (key_without_expiry_is_permanent "b" "2" (frozen 1000) w
              eq_refl eq_refl) as (Hget & _ & _ & _ & Hsweep & _).
  split; [exact Hget | exact Hsweep].
Defined.

(** ** Flushing *)

Lemma exists_loop_empty args clk : forall count w,
  store (self w) = [] ->
  exists_loop args count clk w = (inr count, w).
Proof.
  induction args as [|key rest IH]; intros count w Hs; [reflexivity|].
  cbn [exists_loop]. unfold bind, get_self, ret. rewrite Hs. cbn.
  now apply IH.
Qed.

(** X4.  FLUSHALL answers OK and empties both maps, leaving the counters;
    after it, at any clock and for any key, GET answers null, TTL and PTTL
    answer -2, TYPE answers "none", EXISTS answers 0 and KEYS answers the
    empty array. *)
Theorem flushall_empties_everything clk w :
  let r := _cmd_flushall clk w in
  let w' := snd r in
  reply_of r = inr (simple "OK") /\
  store (self w') = [] /\ expiry_times (self w') = [] /\
  connected_clients (self w') = connected_clients (self w) /\
  total_commands (self w') = total_commands (self w) /\
  (forall key clk',
     _cmd_get [key] clk' w' = (inr null_bulk, w') /\
     _cmd_ttl [key] clk' w' = (inr (integer (-2)), w') /\
     _cmd_pttl [key] clk' w' = (inr (integer (-2)), w') /\
     _cmd_type [key] clk' w' = (inr (simple "none"), w')) /\
  (forall key rest clk',
     _cmd_exists (key :: rest) clk' w' = (inr (integer 0), w')) /\
  (forall args clk',
     _cmd_keys args clk' w' = (inr ("*0" ++ Py.CRLF), w')).
Proof.
  intros r w'. subst w' r.
  change (_cmd_flushall clk w)
    with (@inr Exception string (simple "OK"),
          {| self := with_expiry_times Dict.empty
                       (with_store Dict.empty (self w));
             reads := reads w |}).
  cbn [fst snd reply_of].
  repeat (split; [reflexivity|]). split; [|split].
  - intros key clk'. now repeat split.
  - intros key rest clk'. unfold _cmd_exists, bind.
    now rewrite exists_loop_empty.
  - intros args clk'. reflexivity.
Qed.

(** ** Deleting again *)

Lemma present_count_absent {V} keys (d : Dict.dict V) :
  (forall k, In k keys -> Dict.contains k d = false) ->
  present_count keys d = 0%Z.
Proof.
  induction keys as [|key rest IH]; intros H; [reflexivity|].
  rewrite present_count_cons, (H key (or_introl eq_refl)).
  rewrite (remove_absent key d (H key (or_introl eq_refl))).
  apply IH. intros k Hk. apply H. now right.
Qed.

Lemma purge_all_absent keys s :
  (forall k, In k keys ->
     Dict.contains k (store s) = false /\
     Dict.contains k (expiry_times s) = false) ->
  purge_all keys s = s.
Proof.
  induction keys as [|key rest IH]; intros H; [reflexivity|].
  rewrite purge_all_cons. destruct (H key (or_introl eq_refl)) as [Hs He].
  unfold purge. rewrite (remove_absent _ _ Hs), (remove_absent _ _ He).
  rewrite with_store_same, with_expiry_times_same.
  apply IH. intros k Hk. apply H. now right.
Qed.

(** X5.  DEL is idempotent: a second DEL of the same keys, at any clock,
    answers 0 and leaves the object exactly as the first one left it.  For
    a single key the first DEL answers 1 if the key was in the value map
    and 0 otherwise. *)
Theorem del_twice_answers_zero key rest clk clk' w :
  let args := key :: rest in
  let r1 := _cmd_del args clk w in
  let r2 := _cmd_del args clk' (snd r1) in
  reply_of r2 = inr (integer 0) /\
  server_of r2 = server_of r1 /\
  reply_of (_cmd_del [key] clk w) =
    inr (integer (if Dict.contains key (store (self w)) then 1 else 0)).
Proof.
  intros args r1 r2. subst r2 r1 args. rewrite !_cmd_del_run.
  unfold reply_of, server_of. cbn [fst snd self].
  assert (Hgone := fun k Hk => purge_all_removes (key :: rest) k (self w) Hk).
  split; [|split].
  - rewrite present_count_absent; [reflexivity|].
    intros k Hk. apply (Hgone k Hk).
  - now apply purge_all_absent.
  - rewrite present_count_cons.
    destruct (Dict.contains key (store (self w))); reflexivity.
Qed.

(** ** EXPIRE that does nothing *)

(** X6.  EXPIRE changes nothing when it cannot set an expiry: a seconds
    argument that is not an integer is answered with the error "value is
    not an integer or out of range", whether or not the key exists; a key
    that is not in the value map, or is already expired, is answered with
    0.  In particular EXPIRE does not purge a stale key.  The seconds
    argument is an ASCII token, and an integer literal is one of at most
    4300 characters. *)
Theorem expire_without_effect key seconds_str now clk w :
  (Py.isascii seconds_str = true ->
   is_token seconds_str = true ->
   Py.int_of_str seconds_str = None ->
   _cmd_expire [key; seconds_str] clk w =
   (inr (error "value is not an integer or out of range"), w)) /\
  ((String.length seconds_str <= Py.int_max_str_digits)%nat ->
   Py.int_of_str seconds_str <> None ->
   Dict.contains key (store (self w)) = false ->
   _cmd_expire [key; seconds_str] clk w = (inr (integer 0), w)) /\
  ((String.length seconds_str <= Py.int_max_str_digits)%nat ->
   Py.int_of_str seconds_str <> None ->
   expired_at now key (self w) = true ->
   reply_of (_cmd_expire [key; seconds_str] (frozen now) w) = inr (integer 0) /\
   server_of (_cmd_expire [key; seconds_str] (frozen now) w) = self w).
Proof.
  split; [|split].
  - intros _ _ Hs. unfold _cmd_expire. now rewrite Hs.
  - intros _ Hs Habs. unfold _cmd_expire.
    destruct (Py.int_of_str seconds_str) as [seconds|]; [|contradiction].
    destruct w as [s n]. cbn [self] in Habs. run. now rewrite Habs.
  - intros _ Hs Hexp. unfold _cmd_expire.
    destruct (Py.int_of_str seconds_str) as [seconds|]; [|contradiction].
    destruct w as [s n]. unfold expired_at in Hexp. cbn [self] in Hexp.
    unfold frozen. run.
    destruct (Dict.get key (expiry_times s)) as [t|] eqn:He; [|discriminate].
    unfold Dict.contains.
    destruct (Dict.get key (store s));
      repeat (progress (rewrite ?He, ?Hexp; cbn)); now split.
Qed.

Lemma expire_without_effect_witness :
  let w := after [Line "SET a 1"; Line "EXPIRE a 50"] 0 in
  _cmd_expire ["a"; "ten"] (frozen 0) w =
    (inr (error "value is not an integer or out of range"), w) /\
  _cmd_expire ["b"; "10"] (frozen 0) w = (inr (integer 0), w) /\
  reply_of (_cmd_expire ["a"; "10"] (frozen 100) w) = inr (integer 0) /\
  server_of (_cmd_expire ["a"; "10"] (frozen 100) w) = self w.
Proof.
  intros w.
  destruct (expire_without_effect "a" "ten" 0 (frozen 0) w) as (H1 & _ & _).
  destruct (expire_without_effect "b" "10" 0 (frozen 0) w) as (_ & H2 & _).
  destruct (expire_without_effect "a" "10" 100 (frozen 100) w) as (_ & _ & H3).
  split; [apply H1; reflexivity|].
  split; [apply H2; [apply Nat.leb_le; reflexivity | discriminate | reflexivity]|].
  apply H3; [apply Nat.leb_le; reflexivity | discriminate | reflexivity].
Defined.

(** ** EXPIRE and the time that remains *)

Lemma floor_of_milliseconds x :
  Qfloor x = (Qfloor (x * inject_Z 1000) / 1000)%Z.
Proof.
  destruct x as [n d]. unfold Qfloor, Qmult, inject_Z.
  cbn [Qnum Qden]. rewrite Pos.mul_1_r.
  rewrite Z.div_div by lia. now rewrite Z.div_mul_cancel_r by lia.
Qed.

Lemma remaining_floor x :
  (0 <= x)%Q -> Z.max 0 (Py.int_of_float x) = Qfloor x.
Proof.
  intros H. rewrite (int_of_float_nonneg _ H).
  pose proof (Qfloor_nonneg _ H). lia.
Qed.

(** X7.  TTL is PTTL in whole seconds: at one clock value both answer -2,
    or both answer -1, or PTTL answers the milliseconds that remain and
    TTL that number divided by 1000, rounded down.  Stated for a remaining
    time whose seconds and milliseconds are binary64 values, which float
    arithmetic computes exactly. *)
Theorem ttl_is_pttl_in_seconds key now w :
  exact_remaining now key (self w) = true ->
  exact_milliseconds now key (self w) = true ->
  exists t p,
    reply_of (_cmd_ttl [key] (frozen now) w) = inr (integer t) /\
    reply_of (_cmd_pttl [key] (frozen now) w) = inr (integer p) /\
    t = (if (p <? 0)%Z then p else (p / 1000)%Z).
Proof.
  intros _ _.
  destruct (_cmd_ttl_frozen key now w) as [n1 E1].
  destruct (_cmd_pttl_frozen key now w) as [n2 E2].
  rewrite E1, E2. unfold reply_of. cbn [fst]. eexists _, _.
  split; [reflexivity|]. split; [reflexivity|].
  destruct (live_at now key (self w)) eqn:L; [|reflexivity].
  destruct (Dict.get key (expiry_times (self w))) as [expiry|] eqn:He;
    [|reflexivity].
  pose proof (live_remaining_nonneg _ _ _ _ L He) as Hpos.
  assert (Hms : (0 <= (expiry - now) * inject_Z 1000)%Q).
  { apply Qmult_le_0_compat; [assumption | discriminate]. }
  rewrite (remaining_floor _ Hpos), (remaining_floor _ Hms).
  pose proof (Qfloor_nonneg _ Hms) as Hp.
  destruct (Z.ltb_spec (Qfloor ((expiry - now) * inject_Z 1000)) 0); [lia|].
  apply floor_of_milliseconds.
Qed.

Lemma ttl_is_pttl_in_seconds_witness :
  let w := after [Line "SET k v"; Line "EXPIRE k 10"] 100 in
  exists t p,
    reply_of (_cmd_ttl ["k"] (frozen (401 # 4)) w) = inr (integer t) /\
    reply_of (_cmd_pttl ["k"] (frozen (401 # 4)) w) = inr (integer p) /\
    t = (if (p <? 0)%Z then p else (p / 1000)%Z).
Proof.
  intros w.
  apply (ttl_is_pttl_in_seconds "k" (401 # 4) w); reflexivity.
Defined.

Lemma expiry_after_expire key t s :
  Dict.get key (expiry_times
                  (with_expiry_times (Dict.set key t (expiry_times s)) s))
  = Some t.
Proof. cbn. apply get_set_same. Qed.

(** X8.  EXPIRE with a number of seconds that is not negative keeps the
    value and starts a countdown: TTL at the instant of the call answers
    exactly that number; up to and including the expiry instant GET still
    answers with the value and TTL with the time left, rounded down; past
    it GET answers null, TTL answers -2 and EXISTS answers 0.  Stated for
    a number of seconds, an expiry instant and a time left that are
    binary64 values, so that the float arithmetic of EXPIRE and TTL is
    exact, and for a literal of at most 4300 characters. *)
Theorem expire_starts_a_countdown
        key seconds_str seconds value now later w w1 :
  (String.length seconds_str <= Py.int_max_str_digits)%nat ->
  Py.int_of_str seconds_str = Some seconds ->
  (0 <= seconds < Py.float_limit)%Z ->
  Py.is_float (inject_Z seconds) = true ->
  Py.is_float (now + inject_Z seconds) = true ->
  live_at now key (self w) = true ->
  Dict.get key (store (self w)) = Some value ->
  self w1 = server_of (_cmd_expire [key; seconds_str] (frozen now) w) ->
  reply_of (_cmd_expire [key; seconds_str] (frozen now) w) = inr (integer 1) /\
  store (self w1) = store (self w) /\
  reply_of (_cmd_ttl [key] (frozen now) w1) = inr (integer seconds) /\
  ((later <= now + inject_Z seconds)%Q ->
   reply_of (_cmd_get [key] (frozen later) w1) = inr (bulk value) /\
   (Py.is_float (now + inject_Z seconds - later) = true ->
    reply_of (_cmd_ttl [key] (frozen later) w1) =
      inr (integer (Qfloor (now + inject_Z seconds - later))))) /\
  ((now + inject_Z seconds < later)%Q ->
   reply_of (_cmd_get [key] (frozen later) w1) = inr null_bulk /\
   reply_of (_cmd_ttl [key] (frozen later) w1) = inr (integer (-2)) /\
   reply_of (_cmd_exists [key] (frozen later) w1) = inr (integer 0)).
Proof.
  intros _ Hs Hrange _ _ Hlive Hv Hw1.
  destruct (_cmd_expire_frozen key seconds_str seconds now w Hs) as [n E];
    [lia|].
  rewrite E, Hlive in *. unfold reply_of, server_of in *.
  cbn [fst snd self] in Hw1 |- *.
  assert (He : Dict.get key (expiry_times (self w1)) =
               Some (now + inject_Z seconds)%Q)
    by (rewrite Hw1; apply expiry_after_expire).
  assert (Hstore : store (self w1) = store (self w)) by now rewrite Hw1.
  assert (Hin : Dict.contains key (store (self w1)) = true)
    by (rewrite Hstore; unfold Dict.contains; now rewrite Hv).
  assert (Hq : (0 <= inject_Z seconds)%Q)
    by (change 0%Q with (inject_Z 0); rewrite <- Zle_Qle; lia).
  assert (Hlive_until : forall t, (t <= now + inject_Z seconds)%Q ->
            live_at t key (self w1) = true).
  { intros t Ht. unfold live_at, expired_at. rewrite Hin, He.
    apply gt_false in Ht. now rewrite Ht. }
  assert (Hdead_after : forall t, (now + inject_Z seconds < t)%Q ->
            live_at t key (self w1) = false).
  { intros t Ht. unfold live_at, expired_at. rewrite Hin, He.
    apply gt_true in Ht. now rewrite Ht. }
  assert (Httl : forall t, (t <= now + inject_Z seconds)%Q ->
            fst (_cmd_ttl [key] (frozen t) w1) =
            inr (integer (Qfloor (now + inject_Z seconds - t)))).
  { intros t Ht. destruct (_cmd_ttl_frozen key t w1) as [m Et].
    rewrite Et. cbn [fst]. rewrite (Hlive_until t Ht), He.
    rewrite remaining_floor; [reflexivity | lra]. }
  split; [reflexivity|]. split; [exact Hstore|]. split; [|split].
  - rewrite Httl by lra.
    assert (Hsame : (now + inject_Z seconds - now == inject_Z seconds)%Q)
      by ring.
    now rewrite Hsame, Qfloor_Z.
  - intros Hle. split; [|intros _; now apply Httl].
    destruct (_cmd_get_frozen key later w1) as [m Eg]. rewrite Eg. cbn [fst].
    now rewrite (Hlive_until later Hle), Hstore, Hv.
  - intros Hlt.
    destruct (_cmd_get_frozen key later w1) as [m1 Eg].
    destruct (_cmd_ttl_frozen key later w1) as [m2 Et].
    destruct (_cmd_exists_frozen key [] later w1) as [m3 Ee].
    rewrite Eg, Et, Ee. cbn [fst].
    rewrite live_count_one, (Hdead_after later Hlt). now repeat split.
Qed.

Lemma expire_starts_a_countdown_witness :
  let w := after [Line "SET k v"] 100 in
  let w1 := snd (_cmd_expire ["k"; "10"] (frozen 100) w) in
  reply_of (_cmd_ttl ["k"] (frozen 100) w1) = inr (integer 10) /\
  reply_of (_cmd_get ["k"] (frozen 110) w1) = inr (bulk "v") /\
  reply_of (_cmd_get ["k"] (frozen 111) w1) = inr null_bulk.
Proof.
  intros w w1.
  destruct (expire_starts_a_countdown "k" "10" 10 "v" 100 110 w w1)
    as (_ & _ & Httl & Hbefore & _);
    [apply Nat.leb_le; reflexivity | reflexivity
    | split; [discriminate | reflexivity] | reflexivity | reflexivity
    | reflexivity | reflexivity | reflexivity |].
  destruct (expire_starts_a_countdown "k" "10" 10 "v" 100 111 w w1)
    as (_ & _ & _ & _ & Hafter);
    [apply Nat.leb_le; reflexivity | reflexivity
    | split; [discriminate | reflexivity] | reflexivity | reflexivity
    | reflexivity | reflexivity | reflexivity |].
  split; [exact Httl|]. split.
  - apply Hbefore. discriminate.
  - apply Hafter. reflexivity.
Defined.

(** ** Which entries a command can touch *)

Lemma named_In k keys : named k keys = true <-> In k keys.
Proof.
  unfold named. rewrite existsb_exists. split.
  - intros (x & Hx & E). apply String.eqb_eq in E. now subst.
  - intros H. exists k. split; [assumption | apply String.eqb_refl].
Qed.

Lemma named_false k keys : ~ In k keys -> named k keys = false.
Proof.
  intros H. apply not_true_is_false. intros N. now apply named_In in N.
Qed.

Lemma reads_only_dispatch command args :
  In command readers -> reads_only (dispatch command args).
Proof.
  unfold readers. cbn [In]. intros H.
  repeat (destruct H as [<-|H]); try contradiction.
  - apply reads_only_cmd_ttl.
  - apply reads_only_cmd_pttl.
  - apply reads_only_cmd_keys.
  - apply reads_only_cmd_exists.
  - apply reads_only_cmd_type.
  - apply reads_only_cmd_info.
  - apply reads_only_ret.
  - apply reads_only_ret.
Qed.

(** X9.  A line whose command is TTL, PTTL, KEYS, EXISTS, TYPE, INFO,
    PING or ECHO is always answered, with any arguments and at any clock,
    and changes nothing in the object but the command counter. *)
Theorem readers_change_nothing command_line name args clk w :
  Py.split command_line = name :: args ->
  In (Py.upper name) readers ->
  let r := _process_command command_line clk w in
  (exists reply, reply_of r = inr reply) /\
  server_of r =
    with_total_commands (total_commands (self w) + 1) (self w).
Proof.
  intros Hsplit Hin r. subst r.
  unfold _process_command, bind, modify, try_except. rewrite Hsplit.
  destruct (reads_only_dispatch (Py.upper name) args Hin clk
              {| self := with_total_commands (total_commands (self w) + 1)
                           (self w);
                 reads := reads w |}) as (reply & n & E).
  rewrite E. unfold reply_of, server_of. cbn [fst snd self].
  split; [now exists reply | reflexivity].
Qed.

Lemma readers_change_nothing_witness :
  let w := after [Line "SET a 1"; Line "EXPIRE a 50"] 0 in
  let r := _process_command "keys *" (frozen 100) w in
  (exists reply, reply_of r = inr reply) /\
  server_of r = with_total_commands 3 (self w).
Proof.
  intros w r.
  apply (readers_change_nothing "keys *" "keys" ["*"] (frozen 100) w).
  - reflexivity.
  - cbn. tauto.
Defined.

Lemma get_removes args : forall clk w,
  exists r w',
    _cmd_get args clk w = (r, w') /\
    removes (firstn 1 args) (self w) (self w').
Proof.
  destruct args as [|key [|]]; intros clk w;
    try (eexists _, _; split; [reflexivity | constructor]).
  destruct w as [s n]. run. cases; eexists _, _; (split; [reflexivity|]);
    cbn [firstn self]; try apply removes_none.
  - apply (removes_some [key] s [key]). apply incl_refl.
  - replace (with_expiry_times (Dict.remove key (expiry_times s)) s)
      with (purge_all [key] s);
      [apply (removes_some [key] s [key]), incl_refl|].
    cbn. unfold purge.
    rewrite (remove_absent key (store s))
      by (unfold Dict.contains; now rewrite Heqo).
    now rewrite with_store_same.
Qed.

Lemma dispatch_removes command args clk w :
  command <> "SET" -> command <> "EXPIRE" -> command <> "FLUSHALL" ->
  exists r w',
    dispatch command args clk w = (r, w') /\
    removes (keys_named command args) (self w) (self w').
Proof.
  intros Hset Hexpire Hflush.
  destruct (in_dec string_dec command readers) as [Hr|Hr].
  { destruct (reads_only_dispatch command args Hr clk w) as (a & n & E).
    eexists _, _. split; [exact E | apply removes_none]. }
  destruct (string_dec command "GET") as [->|Hget].
  { destruct (get_removes args clk w) as (r & w' & E & H).
    exists r, w'. split; [exact E | exact H]. }
  destruct (string_dec command "DEL") as [->|Hdel].
  { change (dispatch "DEL" args) with (_cmd_del args).
    destruct args as [|key rest];
      [eexists _, _; split; [reflexivity | apply removes_none]|].
    rewrite _cmd_del_run. eexists _, _. split; [reflexivity|].
    apply removes_some, incl_refl. }
  assert (Hun : recognized command = false).
  { unfold recognized, commands, readers in *. cbn [existsb In] in *.
    repeat match goal with
           | |- (String.eqb command ?c || _)%bool = false =>
               apply orb_false_intro;
                 [apply String.eqb_neq; intros ->; tauto|]
           end.
    reflexivity. }
  rewrite (unrecognized_dispatch command args Hun).
  eexists _, _. split; [reflexivity | apply removes_none].
Qed.

Lemma removes_get keys s s' k :
  removes keys s s' ->
  (~ In k keys ->
   Dict.get k (store s') = Dict.get k (store s) /\
   Dict.get k (expiry_times s') = Dict.get k (expiry_times s)) /\
  (forall v, Dict.get k (store s') = Some v -> Dict.get k (store s) = Some v) /\
  (forall t, Dict.get k (expiry_times s') = Some t ->
             Dict.get k (expiry_times s) = Some t).
Proof.
  intros [|ks Hincl]; [now repeat split|].
  destruct (get_purge_all ks k s) as [-> ->].
  split; [|split].
  - intros Hk. rewrite named_false; [now split|].
    intros Hin. apply Hk, Hincl, Hin.
  - destruct (named k ks); [discriminate | trivial].
  - destruct (named k ks); [discriminate | trivial].
Qed.

Lemma set_effect args clk w :
  exists r w',
    _cmd_set args clk w = (r, w') /\
    (self w' = self w \/
     exists key value rest,
       args = key :: rest /\ self w' = assign key value (self w)).
Proof.
  destruct args as [|key [|v vs]].
  - eexists _, _. split; [reflexivity | now left].
  - eexists _, _. split; [reflexivity | now left].
  - rewrite _cmd_set_run. eexists _, _. split; [reflexivity|].
    right. now eexists _, _, _.
Qed.

Lemma expire_effect args clk w :
  exists r w',
    _cmd_expire args clk w = (r, w') /\
    (self w' = self w \/
     exists key rest t,
       args = key :: rest /\
       self w' = with_expiry_times (Dict.set key t (expiry_times (self w)))
                   (self w)).
Proof.
  destruct args as [|key [|seconds_str [|]]];
    try (eexists _, _; split; [reflexivity | now left]).
  destruct w as [s n]. run.
  destruct (Py.int_of_str seconds_str) as [seconds|];
    [|eexists _, _; split; [reflexivity | now left]].
  destruct (Py.float_of_int seconds) as [delta|];
    cases; eexists _, _; (split; [reflexivity|]); cbn;
    first [ now left | right; now eexists _, _, _ ].
Qed.

Lemma process_command_server command_line name args clk w :
  Py.split command_line = name :: args ->
  server_of (_process_command command_line clk w) =
  server_of (dispatch (Py.upper name) args clk
               {| self := with_total_commands (total_commands (self w) + 1)
                            (self w);
                  reads := reads w |}).
Proof.
  intros Hsplit. unfold _process_command, bind, modify, try_except.
  rewrite Hsplit. cbn [fst snd].
  destruct (dispatch _ _ _ _) as [[e|reply] w']; reflexivity.
Qed.

Lemma get_remove_some {V} key k (d : Dict.dict V) v :
  Dict.get k (Dict.remove key d) = Some v -> Dict.get k d = Some v.
Proof.
  destruct (string_dec k key) as [->|Hne].
  - now rewrite get_remove_same.
  - now rewrite get_remove_other.
Qed.

(** X10.  A command touches only the keys it names: after any line of
    ASCII text other than FLUSHALL, at any clock and whether the handler
    returns or raises, every key that is not the first argument of SET,
    GET or EXPIRE, nor an argument of DEL, has the value and the expiry it
    had. *)
Theorem other_keys_are_untouched command_line name args clk w k :
  Py.isascii command_line = true ->
  Py.split command_line = name :: args ->
  Py.upper name <> "FLUSHALL" ->
  ~ In k (keys_named (Py.upper name) args) ->
  let r := _process_command command_line clk w in
  Dict.get k (store (server_of r)) = Dict.get k (store (self w)) /\
  Dict.get k (expiry_times (server_of r)) = Dict.get k (expiry_times (self w)).
Proof.
  intros _ Hsplit Hflush Hk r. subst r.
  rewrite (process_command_server _ _ _ _ _ Hsplit).
  set (w0 := {| self := with_total_commands _ _; reads := _ |}).
  change (store (self w)) with (store (self w0)).
  change (expiry_times (self w)) with (expiry_times (self w0)).
  clearbody w0. unfold server_of.
  destruct (string_dec (Py.upper name) "SET") as [E|Hset].
  { rewrite E in *. change (dispatch "SET" args) with (_cmd_set args).
    destruct (set_effect args clk w0) as (r & w' & E' & Hcase).
    rewrite E'. cbn [snd]. destruct Hcase as [->|H]; [now split|].
    destruct H as (key & value & rest & -> & ->).
    assert (k <> key) by (intros ->; apply Hk; now left).
    unfold assign. cbn. now rewrite get_set_other, get_remove_other. }
  destruct (string_dec (Py.upper name) "EXPIRE") as [E|Hexpire].
  { rewrite E in *. change (dispatch "EXPIRE" args) with (_cmd_expire args).
    destruct (expire_effect args clk w0) as (r & w' & E' & Hcase).
    rewrite E'. cbn [snd]. destruct Hcase as [->|H]; [now split|].
    destruct H as (key & rest & t & -> & ->).
    assert (k <> key) by (intros ->; apply Hk; now left).
    cbn. now rewrite get_set_other. }
  destruct (dispatch_removes (Py.upper name) args clk w0 Hset Hexpire Hflush)
    as (r & w' & -> & Hrem).
  cbn [snd]. now apply (removes_get _ _ _ k Hrem).
Qed.

Lemma other_keys_are_untouched_witness :
  let w := after [Line "SET a 1"; Line "EXPIRE a 50"; Line "SET b 2"] 0 in
  let r := _process_command "DEL b c" (frozen 100) w in
  Dict.get "a" (store (server_of r)) = Some "1" /\
  Dict.get "a" (expiry_times (server_of r)) = Some (0 + inject_Z 50)%Q.
Proof.
  intros w r.
  apply (other_keys_are_untouched "DEL b c" "DEL" ["b"; "c"] (frozen 100) w "a").
  - reflexivity.
  - reflexivity.
  - vm_compute. discriminate.
  - vm_compute. intuition discriminate.
Defined.

(** X11.  Only SET writes values and only EXPIRE writes expiry instants:
    after a line of ASCII text whose command is not SET every key in the
    value map had the same value before, and after one whose command is
    not EXPIRE every expiry instant in the expiry map was there before.
    The other commands can only remove entries. *)
Theorem only_set_and_expire_write command_line name args clk w :
  Py.isascii command_line = true ->
  Py.split command_line = name :: args ->
  let r := _process_command command_line clk w in
  (Py.upper name <> "SET" ->
   forall k v, Dict.get k (store (server_of r)) = Some v ->
               Dict.get k (store (self w)) = Some v) /\
  (Py.upper name <> "EXPIRE" ->
   forall k t, Dict.get k (expiry_times (server_of r)) = Some t ->
               Dict.get k (expiry_times (self w)) = Some t).
Proof.
  intros _ Hsplit r. subst r.
  rewrite (process_command_server _ _ _ _ _ Hsplit).
  set (w0 := {| self := with_total_commands _ _; reads := _ |}).
  change (store (self w)) with (store (self w0)).
  change (expiry_times (self w)) with (expiry_times (self w0)).
  clearbody w0. unfold server_of.
  destruct (string_dec (Py.upper name) "FLUSHALL") as [E|Hflush].
  { rewrite E. split; intros _ k x; cbn; discriminate. }
  destruct (string_dec (Py.upper name) "SET") as [E|Hset].
  { rewrite E. split; [intros H; now contradiction H|]. intros _ k t.
    change (dispatch "SET" args) with (_cmd_set args).
    destruct (set_effect args clk w0) as (r & w' & E' & Hcase).
    rewrite E'. cbn [snd]. destruct Hcase as [->|H]; [trivial|].
    destruct H as (key & value & rest & -> & ->). cbn.
    apply get_remove_some. }
  destruct (string_dec (Py.upper name) "EXPIRE") as [E|Hexpire].
  { rewrite E. split; [|intros H; now contradiction H]. intros _ k v.
    change (dispatch "EXPIRE" args) with (_cmd_expire args).
    destruct (expire_effect args clk w0) as (r & w' & E' & Hcase).
    rewrite E'. cbn [snd]. destruct Hcase as [->|H]; [trivial|].
    destruct H as (key & rest & t & -> & ->). cbn. trivial. }
  destruct (dispatch_removes (Py.upper name) args clk w0 Hset Hexpire Hflush)
    as (r & w' & -> & Hrem).
  cbn [snd]. split; intros _ k x; now apply (removes_get _ _ _ k Hrem).
Qed.

Lemma only_set_and_expire_write_witness :
  let w := after [Line "SET a 1"; Line "EXPIRE a 50"; Line "SET b 2"] 0 in
  let r := _process_command "GET a" (frozen 100) w in
  Dict.get "b" (store (server_of r)) = Some "2" /\
  Dict.get "b" (store (self w)) = Some "2".
Proof.
  intros w r.
  destruct (only_set_and_expire_write "GET a" "GET" ["a"] (frozen 100) w
              eq_refl eq_refl) as [H _].
  split; [reflexivity|].
  apply (H ltac:(vm_compute; discriminate) "b" "2"). reflexivity.
Defined.

(** ** A whole session *)

Lemma lines_of_spec s :
  s = pipelined (fst (lines_of s)) ++ snd (lines_of s) /\
  Forall (fun line => Py.split_first_lf line = None) (fst (lines_of s)) /\
  Py.split_first_lf (snd (lines_of s)) = None.
Proof.
  induction s as [|c s (IHs & IHl & IHt)]; [now repeat split|].
  cbn [lines_of]. destruct (lines_of s) as [lines tail].
  cbn [fst snd] in *.
  destruct (Ascii.eqb c (ascii_of_nat 10)) eqn:E.
  - apply Ascii.eqb_eq in E. subst c. cbn [fst snd pipelined].
    split; [|split; [constructor; [reflexivity | assumption] | assumption]].
    cbn. now f_equal.
  - destruct lines as [|line rest]; cbn [fst snd pipelined] in *.
    + split; [cbn; now f_equal|]. split; [constructor|].
      cbn [Py.split_first_lf]. now rewrite E, IHt.
    + split; [cbn; now f_equal|]. split; [|assumption].
      inversion IHl as [|? ? Hline Hrest]; subst. constructor; [|assumption].
      cbn [Py.split_first_lf]. now rewrite E, Hline.
Qed.

Lemma lines_of_no_lf s :
  Py.split_first_lf s = None -> lines_of s = ([], s).
Proof.
  induction s as [|c s IH]; [reflexivity|].
  cbn [Py.split_first_lf lines_of].
  destruct (Ascii.eqb c (ascii_of_nat 10)); [discriminate|].
  destruct (Py.split_first_lf s) as [[? ?]|]; [discriminate|].
  intros _. now rewrite IH.
Qed.

Lemma lines_of_app s r :
  lines_of (s ++ r) =
  (fst (lines_of s) ++ fst (lines_of (snd (lines_of s) ++ r)),
   snd (lines_of (snd (lines_of s) ++ r)))%list.
Proof.
  induction s as [|c s IH].
  - cbn. now destruct (lines_of r).
  - cbn [append lines_of]. rewrite IH. destruct (lines_of s) as [l1 t1].
    cbn [fst snd].
    destruct (Ascii.eqb c (ascii_of_nat 10)) eqn:E; [reflexivity|].
    destruct l1 as [|line rest]; cbn [fst snd app]; [|reflexivity].
    cbn [append lines_of]. destruct (lines_of (t1 ++ r)) as [l2 t2].
    rewrite E. now destruct l2.
Qed.

Lemma command_lines_app l1 l2 :
  command_lines (l1 ++ l2) = (command_lines l1 ++ command_lines l2)%list.
Proof. unfold command_lines. now rewrite map_app, filter_app. Qed.

Lemma answer_all_app l1 : forall l2 sent clk w,
  answer_all (l1 ++ l2) sent clk w =
  (sent' <- answer_all l1 sent ;; answer_all l2 sent') clk w.
Proof.
  induction l1 as [|command_line rest IH]; intros l2 sent clk w;
    [reflexivity|].
  cbn [app answer_all]. unfold bind.
  destruct (_process_command command_line clk w) as [[e|response] w'];
    [reflexivity|].
  rewrite IH. reflexivity.
Qed.

Lemma answer_all_connected command_lines : forall sent clk w r w',
  answer_all command_lines sent clk w = (r, w') ->
  connected_clients (self w') = connected_clients (self w).
Proof.
  induction command_lines as [|command_line rest IH];
    intros sent clk w r w' E.
  - cbn in E. unfold ret in E. now injection E as _ <-.
  - cbn [answer_all] in E. unfold bind in E.
    destruct (_process_command_run command_line clk w)
      as (response & w1 & E1 & Hstep).
    rewrite E1 in E. rewrite (IH _ _ _ _ _ E).
    now destruct (store_step_counters _ _ Hstep) as [_ ->].
Qed.

(** The receive loop answers the complete lines of what is in the buffer
    and what the client goes on to send, whatever the cut into reads. *)
Lemma recv_loop_lines chunks : forall buffer sent clk w,
  Py.split_first_lf buffer = None ->
  recv_loop chunks buffer sent clk w =
  answer_all (command_lines (fst (lines_of (buffer ++ received chunks))))
             sent clk w.
Proof.
  induction chunks as [|data later IH]; intros buffer sent clk w Hbuf;
    cbn [recv_loop received].
  - now rewrite append_empty_r, (lines_of_no_lf _ Hbuf).
  - destruct (String.eqb data "") eqn:E.
    + now rewrite append_empty_r, (lines_of_no_lf _ Hbuf).
    + destruct (lines_of_spec (buffer ++ data)) as (Hs & Hl & Ht).
      unfold bind.
      rewrite (on_data_lines _ _ buffer data sent clk w Hl Ht Hs).
      rewrite <- append_assoc.
      rewrite (lines_of_app (buffer ++ data) (received later)). cbn [fst].
      rewrite command_lines_app, answer_all_app. unfold bind.
      destruct (answer_all _ sent clk w) as [[e|sent'] w']; [reflexivity|].
      cbn [ret fst snd]. now apply IH.
Qed.

(** X12.  A session whose reads are ASCII text answers the complete
    lines of everything the client sent before closing, in order and
    after the banner, as if the lines had come one by one: how the text is
    cut into reads makes no difference.  When it ends the
    connected-clients counter is what it was before the session. *)
Theorem session_answers_the_stream chunks clk w :
  ascii_reads chunks = true ->
  let w1 := {| self := with_connected_clients
                         (connected_clients (self w) + 1) (self w);
               reads := reads w |} in
  let lines := fst (lines_of (received chunks)) in
  let a := answer_all (command_lines lines) [banner] clk w1 in
  let r := _handle_client chunks clk w in
  reply_of r = reply_of a /\
  (exists replies,
     reply_of r = inr (banner :: replies) /\
     List.length replies = List.length (command_lines lines)) /\
  server_of r =
    with_connected_clients (connected_clients (self w)) (server_of a) /\
  total_commands (server_of r) =
    (total_commands (self w) + Z.of_nat (List.length (command_lines lines)))%Z.
Proof.
  intros _ w1 lines a r. subst r a.
  unfold _handle_client, bind, modify, try_finally. fold w1.
  rewrite (recv_loop_lines chunks "" [banner] clk w1 eq_refl).
  cbn [append]. fold lines.
  destruct (answer_all_run (command_lines lines) [banner] clk w1)
    as (replies & w' & E & Hlen & Hcount).
  rewrite E. unfold reply_of, server_of. cbn [fst snd self].
  assert (Hcc : connected_clients (self w') =
                (connected_clients (self w) + 1)%Z).
  { now rewrite (answer_all_connected _ _ _ _ _ _ E). }
  split; [reflexivity|]. split; [now exists replies|]. split.
  - rewrite Hcc. f_equal. lia.
  - exact Hcount.
Qed.

Lemma session_answers_the_stream_witness :
  let chunks := ["SET a"; " 1" ++ Py.LF ++ "GE"; "T a" ++ Py.LF ++ "PING"] in
  let r := _handle_client chunks (frozen 0) world0 in
  (exists replies,
     reply_of r = inr (banner :: replies) /\ List.length replies = 2%nat) /\
  total_commands (server_of r) = 2%Z.
Proof.
  intros chunks r.
  destruct (session_answers_the_stream chunks (frozen 0) world0 eq_refl)
    as (_ & Hreplies & _ & Hcount).
  split; [exact Hreplies | exact Hcount].
Defined.

(** ** The shape of the replies *)

Lemma yields_ret {A} (P : A -> Prop) a : P a -> yields P (ret a).
Proof. intros H clk w. exact H. Qed.

Lemma yields_bind {A B} (P : B -> Prop) (m : M A) (f : A -> M B) :
  (forall a, yields P (f a)) -> yields P (bind m f).
Proof.
  intros H clk w. unfold bind.
  destruct (m clk w) as [[e|a] w']; [exact I | apply H].
Qed.

Lemma yields_try_except {A} (P : A -> Prop) (m : M A) h :
  yields P m -> (forall e, yields P (h e)) -> yields P (try_except m h).
Proof.
  intros Hm Hh clk w. unfold try_except. specialize (Hm clk w).
  destruct (m clk w) as [[e|a] w']; [apply Hh | exact Hm].
Qed.

Ltac yields_tac :=
  repeat match goal with
         | |- yields _ (ret _) => apply yields_ret
         | |- yields _ (bind _ _) => apply yields_bind; intro
         | |- yields _ (match ?x with _ => _ end) => destruct x
         end.

Lemma framed_simple text : framed (simple text).
Proof. exists "+"%char, text. split; [reflexivity | cbn; tauto]. Qed.

Lemma framed_error text : framed (error text).
Proof.
  exists "-"%char, ("ERR " ++ text). split; [|cbn; tauto].
  unfold error. now rewrite !append_assoc.
Qed.

Lemma framed_integer n : framed (integer n).
Proof. exists ":"%char, (Py.str n). split; [reflexivity | cbn; tauto]. Qed.

Lemma framed_null_bulk : framed null_bulk.
Proof. exists "$"%char, "-1". split; [reflexivity | cbn; tauto]. Qed.

Lemma bulk_ends value :
  bulk value = String "$" ((Py.str (Py.len value) ++ Py.CRLF ++ value) ++ Py.CRLF).
Proof. unfold bulk. now rewrite !append_assoc. Qed.

Lemma framed_bulk value : framed (bulk value).
Proof.
  eexists "$"%char, _. split; [apply bulk_ends | cbn; tauto].
Qed.

Lemma fold_bulks_ends keys : forall c body,
  exists body',
    fold_left (fun result key => result ++ bulk key) keys
              (String c (body ++ Py.CRLF)) =
    String c (body' ++ Py.CRLF).
Proof.
  induction keys as [|key rest IH]; intros c body; [now exists body|].
  cbn [fold_left]. rewrite bulk_ends.
  set (item := Py.str (Py.len key) ++ Py.CRLF ++ key).
  replace (String c (body ++ Py.CRLF) ++ String "$" (item ++ Py.CRLF))
    with (String c (((body ++ Py.CRLF) ++ String "$" item) ++ Py.CRLF));
    [apply IH|].
  cbn [append]. f_equal. now rewrite append_assoc.
Qed.

Lemma keys_reply_ends current_keys :
  exists body, keys_reply current_keys = String "*" (body ++ Py.CRLF).
Proof.
  destruct current_keys as [|key rest]; [now exists "0"|].
  unfold keys_reply. apply (fold_bulks_ends (key :: rest) "*"%char).
Qed.

Lemma framed_keys_reply current_keys : framed (keys_reply current_keys).
Proof.
  destruct (keys_reply_ends current_keys) as [body E].
  exists "*"%char, body. split; [exact E | cbn; tauto].
Qed.

Lemma framed_wrong_arity cmd : framed (wrong_arity cmd).
Proof. apply framed_error. Qed.

Create HintDb framed.

#[local] Hint Resolve framed_simple framed_error framed_integer
  framed_null_bulk framed_bulk framed_keys_reply framed_wrong_arity : framed.

Lemma yields_framed_dispatch command args :
  yields framed (dispatch command args).
Proof.
  unfold dispatch, _cmd_set, _cmd_get, _cmd_del, _cmd_expire, _cmd_ttl,
    _cmd_pttl, _cmd_keys, _cmd_exists, _cmd_type, _cmd_flushall, _cmd_info.
  repeat match goal with
         | |- yields _ (if ?b then _ else _) => destruct b
         end;
    yields_tac;
    repeat match goal with
           | |- framed (match ?x with _ => _ end) => destruct x
           end;
    auto with framed.
Qed.

(** X13.  Every line gets exactly one reply in the shape of the wire
    protocol: it starts with one of the type characters + - : $ * and
    ends with carriage return and line feed, error replies included. *)
Theorem every_reply_is_framed command_line clk w :
  exists reply,
    reply_of (_process_command command_line clk w) = inr reply /\
    framed reply.
Proof.
  destruct (_process_command_run command_line clk w) as (reply & w' & E & _).
  exists reply. rewrite E. split; [reflexivity|].
  assert (H : yields framed (_process_command command_line)).
  { unfold _process_command. apply yields_bind. intros _.
    destruct (Py.split command_line) as [|name args];
      [apply yields_ret; auto with framed|].
    apply yields_try_except; [apply yields_framed_dispatch|].
    intros e. apply yields_ret. auto with framed. }
  specialize (H clk w). now rewrite E in H.
Qed.

(** ** The reply "empty command" *)

Lemma simple_not_empty text : simple text <> empty_command.
Proof. unfold simple, empty_command, error. cbn [append]. discriminate. Qed.

Lemma integer_not_empty n : integer n <> empty_command.
Proof. unfold integer, empty_command, error. cbn [append]. discriminate. Qed.

Lemma null_bulk_not_empty : null_bulk <> empty_command.
Proof. unfold null_bulk, empty_command, error. cbn [append]. discriminate. Qed.

Lemma bulk_not_empty value : bulk value <> empty_command.
Proof. unfold bulk, empty_command, error. cbn [append]. discriminate. Qed.

Lemma keys_reply_not_empty current_keys : keys_reply current_keys <> empty_command.
Proof.
  destruct (keys_reply_ends current_keys) as [body ->].
  unfold empty_command, error. cbn [append]. discriminate.
Qed.

Lemma wrong_arity_not_empty cmd : wrong_arity cmd <> empty_command.
Proof.
  unfold wrong_arity, empty_command, error. cbn [append]. discriminate.
Qed.

Lemma not_integer_not_empty :
  error "value is not an integer or out of range" <> empty_command.
Proof. unfold empty_command, error. cbn [append]. discriminate. Qed.

Lemma unknown_not_empty command :
  error ("unknown command '" ++ command ++ "'") <> empty_command.
Proof. unfold empty_command, error. cbn [append]. discriminate. Qed.

Lemma exception_not_empty e : error (str_of_exception e) <> empty_command.
Proof.
  destruct e; unfold empty_command, error, str_of_exception; cbn [append];
    discriminate.
Qed.

Create HintDb not_empty.

#[local] Hint Resolve simple_not_empty integer_not_empty null_bulk_not_empty
  bulk_not_empty keys_reply_not_empty wrong_arity_not_empty
  not_integer_not_empty unknown_not_empty exception_not_empty : not_empty.

Lemma yields_not_empty_dispatch command args :
  yields (fun reply => reply <> empty_command) (dispatch command args).
Proof.
  unfold dispatch, _cmd_set, _cmd_get, _cmd_del, _cmd_expire, _cmd_ttl,
    _cmd_pttl, _cmd_keys, _cmd_exists, _cmd_type, _cmd_flushall, _cmd_info.
  repeat match goal with
         | |- yields _ (if ?b then _ else _) => destruct b
         end;
    yields_tac;
    repeat match goal with
           | |- (match ?x with _ => _ end) <> _ => destruct x
           end;
    auto with not_empty.
Qed.

(** X14.  The reply "empty command" is given to the lines without a
    token and to no other line.  A session hands over only lines that are
    not empty after trimming, and those always have a token: so a session
    never sends that reply. *)
Theorem empty_command_only_without_token :
  (forall command_line clk w,
     reply_of (_process_command command_line clk w) = inr empty_command <->
     Py.split command_line = []) /\
  (forall line clk w,
     Py.strip line <> "" ->
     reply_of (_process_command (Py.strip line) clk w) <> inr empty_command).
Proof.
  assert (Hiff : forall command_line clk w,
    reply_of (_process_command command_line clk w) = inr empty_command <->
    Py.split command_line = []).
  { intros command_line clk w. split.
    - intros Hreply.
      destruct (Py.split command_line) as [|name args] eqn:Hsplit;
        [reflexivity|]. exfalso.
      assert (H : yields (fun reply => reply <> empty_command)
                         (_process_command command_line)).
      { unfold _process_command. apply yields_bind. intros _. rewrite Hsplit.
        apply yields_try_except; [apply yields_not_empty_dispatch|].
        intros e. apply yields_ret. auto with not_empty. }
      specialize (H clk w). unfold reply_of in Hreply. rewrite Hreply in H.
      now apply H.
    - intros Hsplit. unfold _process_command, bind, modify, reply_of.
      now rewrite Hsplit. }
  split; [exact Hiff|].
  intros line clk w Hne Hreply. apply Hiff in Hreply.
  destruct (trimmed_line_has_name line Hne) as (name & args & E).
  rewrite E in Hreply. discriminate.
Qed.

Lemma empty_command_only_without_token_witness :
  reply_of (_process_command (Py.strip "  ping ") (frozen 0) world0)
  <> inr empty_command.
Proof.
  destruct empty_command_only_without_token as [_ H].
  apply H. vm_compute. discriminate.
Defined.

(** ** Tokens *)

Lemma split_tokens s : Forall (fun t => is_token t = true) (Py.split s).
Proof.
  induction s as [|c s IH]; [constructor|].
  cbn [Py.split]. destruct (Py.is_space c) eqn:Ec; [exact IH|].
  assert (Hc : is_token (String c "") = true)
    by (unfold is_token; cbn; now rewrite Ec).
  destruct s as [|c' s']; [now repeat constructor|].
  destruct (Py.is_space c') eqn:Ec'; [now constructor|].
  destruct (Py.split (String c' s')) as [|t ts]; [now repeat constructor|].
  inversion IH as [|? ? Ht Hts]; subst. constructor; [|assumption].
  unfold is_token in *. cbn [String.eqb negb andb no_space] in *.
  rewrite Ec. apply andb_true_iff in Ht. now destruct Ht as [_ ->].
Qed.

Lemma split_token_then_space t : forall c rest,
  is_token t = true -> Py.is_space c = true ->
  Py.split (t ++ String c rest) = t :: Py.split rest.
Proof.
  induction t as [|x t IH]; intros c rest Ht Hc; [discriminate|].
  unfold is_token in Ht. cbn [String.eqb negb andb no_space] in Ht.
  apply andb_true_iff in Ht. destruct Ht as [Hx Ht].
  apply negb_true_iff in Hx.
  cbn [append Py.split]. rewrite Hx.
  destruct t as [|x' t'].
  - cbn [append]. rewrite Hc. cbn [Py.split]. now rewrite Hc.
  - cbn [append].
    assert (Hx' : Py.is_space x' = false).
    { cbn [no_space] in Ht. apply andb_true_iff in Ht.
      now apply negb_true_iff. }
    rewrite Hx'.
    change (String x' (t' ++ String c rest))
      with (String x' t' ++ String c rest).
    rewrite (IH c rest); [reflexivity | | assumption].
    unfold is_token. now cbn [String.eqb negb andb].
Qed.

Lemma split_token t : is_token t = true -> Py.split t = [t].
Proof.
  induction t as [|x t IH]; intros Ht; [discriminate|].
  unfold is_token in Ht. cbn [String.eqb negb andb no_space] in Ht.
  apply andb_true_iff in Ht. destruct Ht as [Hx Ht].
  apply negb_true_iff in Hx. cbn [Py.split]. rewrite Hx.
  destruct t as [|x' t']; [reflexivity|].
  assert (Hx' : Py.is_space x' = false).
  { cbn [no_space] in Ht. apply andb_true_iff in Ht.
    now apply negb_true_iff. }
  rewrite Hx', IH; [reflexivity|].
  unfold is_token. now cbn [String.eqb negb andb].
Qed.

Lemma join_cons t t' rest :
  Py.join " " (t :: t' :: rest) = t ++ String " " (Py.join " " (t' :: rest)).
Proof. reflexivity. Qed.

(** Joining tokens with single blanks and splitting again gives the
    tokens back. *)
Lemma split_join tokens :
  Forall (fun t => is_token t = true) tokens ->
  Py.split (Py.join " " tokens) = tokens.
Proof.
  induction tokens as [|t rest IH]; intros H; [reflexivity|].
  inversion H as [|? ? Ht Hrest]; subst.
  destruct rest as [|t' rest'].
  - cbn. now apply split_token.
  - rewrite (join_cons t t' rest').
    rewrite split_token_then_space; [|assumption|reflexivity].
    now rewrite IH.
Qed.

(** X15.  SET keeps the words of a value and not its spacing: the value
    stored by a SET line of ASCII text is the words after the key joined by single
    blanks, GET gives it back, and tokenizing it again gives exactly those
    words.  ECHO answers with its words joined in the same way. *)
Theorem set_keeps_the_words command_line name key word words clk w :
  Py.isascii command_line = true ->
  Py.split command_line = name :: key :: word :: words ->
  Py.upper name = "SET" ->
  let value := Py.join " " (word :: words) in
  let r := _process_command command_line clk w in
  reply_of r = inr (simple "OK") /\
  Dict.get key (store (server_of r)) = Some value /\
  reply_of (_cmd_get [key] clk (snd r)) = inr (bulk value) /\
  Py.split value = word :: words /\
  dispatch "ECHO" (word :: words) = ret (simple value).
Proof.
  intros _ Hsplit Hname value r. subst r.
  unfold _process_command, bind, modify, try_except.
  rewrite Hsplit, Hname.
  change (dispatch "SET" (key :: word :: words))
    with (_cmd_set (key :: word :: words)).
  rewrite _cmd_set_run. fold value. unfold reply_of, server_of.
  cbn [fst snd self].
  split; [reflexivity|]. split; [unfold assign; cbn; apply get_set_same|].
  split; [|split; [|reflexivity]].
  - unfold assign. run.
    repeat (progress (rewrite ?get_set_same, ?contains_set_same,
                        ?get_remove_same, ?contains_remove_same; cbn)).
    reflexivity.
  - apply split_join.
    pose proof (split_tokens command_line) as Htok. rewrite Hsplit in Htok.
    inversion Htok as [|? ? _ Htok1]; subst.
    now inversion Htok1.
Qed.

Lemma set_keeps_the_words_witness :
  let r := _process_command "set  greeting   hello    world " (frozen 0) world0 in
  Dict.get "greeting" (store (server_of r)) = Some "hello world" /\
  Py.split "hello world" = ["hello"; "world"].
Proof.
  intros r.
  destruct (set_keeps_the_words "set  greeting   hello    world " "set"
              "greeting" "hello" ["world"] (frozen 0) world0
              eq_refl eq_refl eq_refl)
    as (_ & Hget & _ & Hsplit & _).
  split; [exact Hget | exact Hsplit].
Defined.

(** ** Every key once *)

Lemma keeps_ret I {A} (a : A) : keeps I (ret a).
Proof. intros clk w H. now exists a, w. Qed.

Lemma keeps_bind I {A B} (m : M A) (f : A -> M B) :
  keeps I m -> (forall a, keeps I (f a)) -> keeps I (bind m f).
Proof.
  intros Hm Hf clk w H. destruct (Hm clk w H) as (a & w1 & E & H1).
  destruct (Hf a clk w1 H1) as (b & w2 & E' & H2).
  exists b, w2. unfold bind. now rewrite E, E'.
Qed.

Lemma well_formed_process_command command_line :
  keeps well_formed (_process_command command_line).
Proof.
  intros clk w H.
  destruct (_process_command_run command_line clk w) as (reply & w' & E & Hstep).
  exists reply, w'. split; [assumption|].
  apply (store_step_NoDup _ _ Hstep). exact H.
Qed.

Lemma well_formed_cleanup_cycle : keeps well_formed cleanup_cycle.
Proof.
  intros clk w H. rewrite cleanup_cycle_exact. eexists tt, _.
  split; [reflexivity|]. cbn [self]. now apply purge_all_NoDup.
Qed.

Lemma well_formed_drain fuel : forall buffer sent,
  keeps well_formed (drain fuel buffer sent).
Proof.
  induction fuel as [|fuel IH]; intros buffer sent; cbn [drain];
    [apply keeps_ret|].
  destruct (Py.split_first_lf buffer) as [[line buffer']|];
    [|apply keeps_ret].
  destruct (String.eqb (Py.strip line) ""); [apply IH|].
  apply keeps_bind; [apply well_formed_process_command|].
  intros response. apply IH.
Qed.

Lemma well_formed_recv_loop chunks : forall buffer sent,
  keeps well_formed (recv_loop chunks buffer sent).
Proof.
  induction chunks as [|data later IH]; intros buffer sent; cbn [recv_loop];
    [apply keeps_ret|].
  destruct (String.eqb data ""); [apply keeps_ret|].
  apply keeps_bind; [apply well_formed_drain|]. intros bs. apply IH.
Qed.

Lemma well_formed_handle_client chunks :
  keeps well_formed (_handle_client chunks).
Proof.
  unfold _handle_client. apply keeps_bind.
  - intros clk w H. eexists tt, _. split; [reflexivity | exact H].
  - intros _ clk w H. unfold try_finally.
    destruct (well_formed_recv_loop chunks "" [banner] clk w H)
      as (sent & w1 & E & H1).
    rewrite E. eexists sent, _. split; [reflexivity | exact H1].
Qed.

(** The model keeps what Python gives for free: after any events on a
    fresh server, each dictionary holds every key once. *)
Lemma reachable_well_formed events : keeps well_formed (run_events events).
Proof.
  induction events as [|e rest IH]; cbn [run_events]; [apply keeps_ret|].
  apply keeps_bind; [|intros _; apply IH].
  destruct e as [command_line|chunks|]; cbn [run_event].
  - apply keeps_bind; [apply well_formed_process_command|].
    intros _. apply keeps_ret.
  - apply keeps_bind; [apply well_formed_handle_client|].
    intros _. apply keeps_ret.
  - apply well_formed_cleanup_cycle.
Qed.

Lemma well_formed_after events now : well_formed (self (after events now)).
Proof.
  unfold after.
  destruct (reachable_well_formed events (frozen now) world0)
    as ([] & w' & E & H); [split; constructor|].
  now rewrite E.
Qed.

(** ** Listing and counting *)

Lemma live_keys_In now s k :
  In k (live_keys now s) <-> live_at now k s = true.
Proof.
  unfold live_keys, live_at. rewrite filter_In, andb_true_iff.
  now rewrite contains_In.
Qed.

(** X16.  KEYS, whatever its arguments, lists every key that is live at
    the clock value, each one once and in the order of the value map, and
    no other key; it changes nothing. *)
Theorem keys_lists_each_live_key_once args now w :
  NoDup (Dict.keys (store (self w))) ->
  let listed := live_keys now (self w) in
  reply_of (_cmd_keys args (frozen now) w) = inr (keys_reply listed) /\
  NoDup listed /\
  (forall k, In k listed <-> live_at now k (self w) = true) /\
  server_of (_cmd_keys args (frozen now) w) = self w.
Proof.
  intros Hnd listed. destruct (_cmd_keys_frozen args now w) as [n E].
  rewrite E. unfold reply_of, server_of. cbn [fst snd self].
  split; [reflexivity|]. split; [now apply NoDup_filter|].
  split; [intros k; apply live_keys_In | reflexivity].
Qed.

Lemma keys_lists_each_live_key_once_witness :
  let w := after [Line "SET a 1"; Line "EXPIRE a 50"; Line "SET b 2";
                  Line "SET c 3"; Line "SET b 4"] 0 in
  reply_of (_cmd_keys [] (frozen 100) w) = inr (keys_reply ["b"; "c"]) /\
  NoDup (live_keys 100 (self w)).
Proof.
  intros w.
  destruct (keys_lists_each_live_key_once [] 100 w) as (Hreply & Hnd & _).
  - apply (well_formed_after _ 0).
  - split; [exact Hreply | exact Hnd].
Defined.

Lemma live_count_app now args args' s :
  live_count now (args ++ args')%list s =
  (live_count now args s + live_count now args' s)%Z.
Proof.
  unfold live_count. rewrite filter_app, length_app. lia.
Qed.

(** X17.  EXISTS counts arguments, not keys: its answer is the number of
    arguments that name a live key, so a live key given twice counts
    twice; the answer lies between 0 and the number of arguments, and the
    object is unchanged. *)
Theorem exists_counts_every_occurrence key rest now w :
  let args := key :: rest in
  let count := live_count now args (self w) in
  reply_of (_cmd_exists args (frozen now) w) = inr (integer count) /\
  server_of (_cmd_exists args (frozen now) w) = self w /\
  (0 <= count <= Z.of_nat (List.length args))%Z /\
  reply_of (_cmd_exists (args ++ args)%list (frozen now) w) =
    inr (integer (2 * count)).
Proof.
  intros args count. subst count args.
  destruct (_cmd_exists_frozen key rest now w) as [n E].
  destruct (_cmd_exists_frozen key (rest ++ key :: rest)%list now w) as [n' E'].
  rewrite E. change ((key :: rest) ++ key :: rest)%list
    with (key :: (rest ++ key :: rest))%list.
  rewrite E'. unfold reply_of, server_of. cbn [fst snd self].
  split; [reflexivity|]. split; [reflexivity|]. split.
  - unfold live_count.
    pose proof (filter_length_le (fun k => live_at now k (self w)) (key :: rest)).
    lia.
  - change (key :: rest ++ key :: rest)%list
      with ((key :: rest) ++ key :: rest)%list.
    rewrite live_count_app. do 2 f_equal. lia.
Qed.

(** ** How many entries *)

Lemma size_remove {V} key (d : Dict.dict V) :
  NoDup (Dict.keys d) ->
  Dict.size (Dict.remove key d) =
  (Dict.size d - (if Dict.contains key d then 1 else 0))%Z.
Proof.
  unfold Dict.size, Dict.contains.
  induction d as [|[k v] d IH]; intros Hnd; [reflexivity|].
  inversion Hnd as [|? ? Hnin Hd]; subst. specialize (IH Hd).
  cbn [Dict.remove Dict.get].
  destruct (String.eqb key k) eqn:E.
  - apply String.eqb_eq in E. subst k.
    assert (Habs : Dict.contains key d = false).
    { apply not_true_is_false. intros H. now apply contains_In in H. }
    rewrite (remove_absent _ _ Habs). cbn [List.length].
    rewrite Nat2Z.inj_succ. lia.
  - cbn [List.length]. rewrite !Nat2Z.inj_succ. lia.
Qed.

Lemma size_set {V} key (v : V) (d : Dict.dict V) :
  Dict.size (Dict.set key v d) =
  (Dict.size d + (if Dict.contains key d then 0 else 1))%Z.
Proof.
  unfold Dict.size, Dict.contains.
  induction d as [|[k v'] d IH]; [reflexivity|].
  cbn [Dict.set Dict.get]. destruct (String.eqb key k).
  - cbn [List.length]. lia.
  - cbn [List.length]. rewrite !Nat2Z.inj_succ. lia.
Qed.

Lemma size_purge_all keys : forall s,
  NoDup (Dict.keys (store s)) ->
  Dict.size (store (purge_all keys s)) =
  (Dict.size (store s) - present_count keys (store s))%Z.
Proof.
  induction keys as [|key rest IH]; intros s Hnd.
  - cbn. unfold present_count. cbn. lia.
  - rewrite purge_all_cons, present_count_cons, IH.
    + unfold purge. cbn [store with_store with_expiry_times].
      rewrite (size_remove key (store s) Hnd). lia.
    + unfold purge. cbn [store with_store with_expiry_times].
      now apply NoDup_keys_remove.
Qed.

(** X18.  The answer of DEL is the number of entries the value map loses,
    and SET adds one entry exactly when its key was not in the value map;
    the entry count is what INFO reports as used memory, in a text that
    also gives the clock value in whole seconds as uptime and the two
    counters. *)
Theorem entry_count_follows_set_and_del key rest clk w :
  NoDup (Dict.keys (store (self w))) ->
  (let count := present_count (key :: rest) (store (self w)) in
   reply_of (_cmd_del (key :: rest) clk w) = inr (integer count) /\
   Dict.size (store (server_of (_cmd_del (key :: rest) clk w))) =
     (Dict.size (store (self w)) - count)%Z /\
   (0 <= count <= Dict.size (store (self w)))%Z) /\
  (forall first more,
     rest = first :: more ->
     Dict.size (store (server_of (_cmd_set (key :: rest) clk w))) =
       (Dict.size (store (self w))
        + (if Dict.contains key (store (self w)) then 0 else 1))%Z) /\
  (forall clk' w',
     server_of (_cmd_info clk' w') = self w' /\
     reply_of (_cmd_info clk' w') =
       inr (bulk
         ("# Server" ++ Py.LF ++
          "redis_version:1.0.0-custom" ++ Py.LF ++
          "uptime_in_seconds:"
            ++ Py.str (Py.int_of_float (clk' (reads w'))) ++ Py.LF ++
          "connected_clients:"
            ++ Py.str (connected_clients (self w')) ++ Py.LF ++
          "total_commands_processed:"
            ++ Py.str (total_commands (self w')) ++ Py.LF ++
          Py.LF ++
          "# Memory" ++ Py.LF ++
          "used_memory:" ++ Py.str (Dict.size (store (self w'))) ++ Py.LF ++
          Py.LF ++
          "# Stats" ++ Py.LF ++
          "total_connections_received:"
            ++ Py.str (total_commands (self w')) ++ Py.LF ++
          "keyspace_hits:0" ++ Py.LF ++
          "keyspace_misses:0" ++ Py.LF))).
Proof.
  intros Hnd. split; [|split]; [| |intros clk' w'; split; reflexivity].
  - rewrite _cmd_del_run. unfold reply_of, server_of. cbn [fst snd self].
    split; [reflexivity|].
    pose proof (size_purge_all (key :: rest) (self w) Hnd) as Hsize.
    split; [exact Hsize|]. split.
    + unfold present_count. lia.
    + assert (0 <= Dict.size (store (purge_all (key :: rest) (self w))))%Z
        by (unfold Dict.size; lia).
      lia.
  - intros first more ->. rewrite _cmd_set_run. unfold server_of, assign.
    cbn [snd self store with_store with_expiry_times].
    apply size_set.
Qed.

Lemma entry_count_follows_set_and_del_witness :
  let w := after [Line "SET a 1"; Line "SET b 2"; Line "SET c 3"] 0 in
  let w' := snd (_cmd_del ["a"; "x"; "a"; "c"] (frozen 0) w) in
  Dict.size (store (server_of (_cmd_del ["a"; "x"; "a"; "c"] (frozen 0) w)))
  = 1%Z /\
  Dict.size (store (server_of (_cmd_set ["d"; "4"] (frozen 0) w))) = 4%Z /\
  reply_of (_cmd_info (frozen (15 # 2)) w') =
    inr (bulk
      ("# Server" ++ Py.LF ++
       "redis_version:1.0.0-custom" ++ Py.LF ++
       "uptime_in_seconds:7" ++ Py.LF ++
       "connected_clients:0" ++ Py.LF ++
       "total_commands_processed:3" ++ Py.LF ++
       Py.LF ++
       "# Memory" ++ Py.LF ++
       "used_memory:1" ++ Py.LF ++
       Py.LF ++
       "# Stats" ++ Py.LF ++
       "total_connections_received:3" ++ Py.LF ++
       "keyspace_hits:0" ++ Py.LF ++
       "keyspace_misses:0" ++ Py.LF)).
Proof.
  intros w w'.
  destruct (entry_count_follows_set_and_del "a" ["x"; "a"; "c"] (frozen 0) w
              (proj1 (well_formed_after _ 0)))
    as ((_ & Hsize & _) & _ & Hinfo).
  destruct (entry_count_follows_set_and_del "d" ["4"] (frozen 0) w
              (proj1 (well_formed_after _ 0))) as (_ & Hset & _).
  split; [exact Hsize|]. split; [exact (Hset "4" [] eq_refl)|].
  exact (proj2 (Hinfo (frozen (15 # 2)) w')).
Defined.
